(** * Piece bookkeeping and tracker wire codec of the torrent client

    Module [torrent] embeds [misc.go] of package [torrent]: hash-sum
    copies, the piece completeness predicate, the terminal chunk of a
    piece, the pending-bytes comparator and [mmapTorrentData], over the
    metainfo fields of module [metainfo].  Module [tracker] holds the wire
    structures of the UDP tracker protocol and their codec.  The
    properties follow the definitions. *)

From Stdlib Require Import ZArith Lia Bool.
From Stdlib Require Import Strings.Byte.
From stdpp Require Import base option list strings gmap.

Open Scope Z_scope.

Set Warnings "-clear-no-such-hyp".

(** ** Shared vocabulary *)

(** How a Go call ends: it returns a value or it panics with a message. *)
Inductive outcome (A : Type) : Type :=
  | Returned (a : A)
  | Panicked (msg : string).
Arguments Returned {A} a.
Arguments Panicked {A} msg.

Definition aborts {A} (o : outcome A) : Prop :=
  match o with
  | Panicked _ => True
  | Returned _ => False
  end.

(** Go's builtin [copy(dst, src)]: the first [min (len dst) (len src)]
    bytes of [dst] are overwritten, and that count is returned. *)
Definition copy (dst src : list byte) : list byte * nat :=
  let n := Nat.min (length dst) (length src) in
  (take n src ++ drop n dst, n).

(** Indexing a slice with a Go [int]; [None] stands for the
    index-out-of-range panic. *)
Definition index {A} (l : list A) (i : Z) : option A :=
  if i <? 0 then None else l !! Z.to_nat i.

(** Package [metainfo]: the fields of a torrent's metainfo that
    [mmapTorrentData] reads. *)
Module metainfo.

Record FileInfo : Type := mkFileInfo {
  Length : Z;             (* int64 *)
  Path : list string
}.

Record MetaInfo : Type := mkMetaInfo {
  Name : string;
  Files : list FileInfo
}.

End metainfo.

Module torrent.

(** ** Constants *)

Definition maxRequests : Z := 250.
Definition chunkSize : Z := 0x4000.

(** ** Hash sums *)

(** [InfoHash] and [pieceSum] are [[20]byte] arrays. *)
Definition hashLen : nat := 20.
Definition InfoHash := list byte.
Definition pieceSum := list byte.
Definition zeroHash : list byte := replicate hashLen x00.

(** [copyHashSum]: the result carries the contents of [dst] after the
    call. *)
Definition copyHashSum (dst src : list byte) : outcome (list byte) :=
  if negb (length dst =? length src)%nat then
    Panicked "hash sum sizes differ"
  else
    let '(dst', n) := copy dst src in
    if negb (n =? length dst)%nat then Panicked "hash sum sizes differ"
    else Returned dst'.

(** [BytesInfoHash]: [ih] starts as the zero array. *)
Definition BytesInfoHash (b : list byte) : outcome InfoHash :=
  let ih := zeroHash in
  if negb (length b =? length ih)%nat then
    Panicked "bad infohash bytes"
  else
    let '(ih', n) := copy ih b in
    if negb (n =? length ih)%nat then Panicked "bad infohash bytes"
    else Returned ih'.

(** ** Chunks and pieces *)

Record chunkSpec : Type := mkChunkSpec { Begin : Z; Length : Z }.

#[global] Instance chunkSpec_eq_dec : EqDecision chunkSpec.
Proof. solve_decision. Defined.

#[global] Instance chunkSpec_countable : Countable chunkSpec.
Proof.
  apply (inj_countable' (fun cs => (Begin cs, Length cs))
                        (fun p => mkChunkSpec (fst p) (snd p))).
  by intros [].
Defined.

Record request : Type := mkRequest { Index : Z; Chunk : chunkSpec }.

Definition newRequest (index begin length : Z) : request :=
  mkRequest index (mkChunkSpec begin length).

(** [PendingChunkSpecs] is a [map[chunkSpec]struct{}], that is a set. *)
Record piece : Type := mkPiece {
  Hash : pieceSum;
  PendingChunkSpecs : gset chunkSpec;
  Hashing : bool;
  QueuedForHash : bool;
  EverHashed : bool
}.

Definition Complete (p : piece) : bool :=
  (size (PendingChunkSpecs p) =? 0)%nat && EverHashed p.

(** ** The terminal chunk of a piece

    [peer_protocol.Integer] is declared outside this package; it is an
    unsigned machine integer, taken here with an arbitrary width [bits].
    Every arithmetic step wraps modulo [2 ^ bits]. *)
Section Integer.

Variable bits : Z.

Definition wrap (z : Z) : Z := z mod 2 ^ bits.

Definition lastChunkSpec (pieceLength : Z) : chunkSpec :=
  let begin := wrap (wrap (wrap (pieceLength - 1) / chunkSize) * chunkSize) in
  {| Begin := begin; Length := wrap (pieceLength - begin) |}.

End Integer.

(** ** Ordering pieces by pending bytes *)

Record pieceByBytesPendingSlice : Type := mkSlice {
  Pending : list Z;
  Indices : list Z
}.

Definition Len (pcs : pieceByBytesPendingSlice) : Z :=
  Z.of_nat (length (Indices pcs)).

Definition Less (me : pieceByBytesPendingSlice) (i j : Z) : option bool :=
  a ← index (Indices me) i;
  pa ← index (Pending me) a;
  b ← index (Indices me) j;
  pb ← index (Pending me) b;
  Some (pa <? pb).

(** What breaking ties by index would mean for two positions of the
    slice: with equal pending counts, the position that holds the smaller
    piece index ranks first. *)
Definition ties_broken_by_index (me : pieceByBytesPendingSlice) : Prop :=
  forall i j a b pa pb,
    index (Indices me) i = Some a -> index (Indices me) j = Some b ->
    index (Pending me) a = Some pa -> index (Pending me) b = Some pb ->
    pa = pb -> a < b -> Less me i j = Some true.

Definition Swap (me : pieceByBytesPendingSlice) (i j : Z)
  : option pieceByBytesPendingSlice :=
  a ← index (Indices me) i;
  b ← index (Indices me) j;
  Some {| Pending := Pending me;
          Indices := <[Z.to_nat j := a]> (<[Z.to_nat i := b]> (Indices me)) |}.

(** The operand of [Less] for position [i]: [me.Pending[me.Indices[i]]],
    the pending bytes of the piece kept at that position. *)
Definition pendingAt (me : pieceByBytesPendingSlice) (i : Z) : option Z :=
  a ← index (Indices me) i; index (Pending me) a.

(** Where the element at position [k] sits after positions [i] and [j]
    have been exchanged. *)
Definition exchanged (i j k : Z) : Z :=
  if k =? i then j else if k =? j then i else k.

(** ** Mapping the torrent's files

    The operating system is a state: the directories and regular files
    that exist (a file with its size), the mapped regions that are live,
    and the log of the calls made so far.  A call can be refused by the
    host for reasons the program does not control (permissions, a full
    disk); [host] says what the k-th call meets. *)

Definition error := string.

Inductive event : Type :=
  | EMkdirAll (dir : string)
  | EOpenFile (name : string)
  | EStat (name : string)
  | ETruncate (name : string) (size : Z)
  | EMapRegion (name : string) (length : Z)
  | EClose (name : string)
  | EUnmap (id : nat).

Inductive reply : Type :=
  | Proceed
  | Refuse (e : error)
  | Deviate (n : Z).   (* a mapped region of [n] bytes, whatever was asked *)

Record world : Type := mkWorld {
  dirs : gset string;
  files : gmap string Z;
  live : gset nat;
  log : list event
}.

(** An open [*os.File] is known by the name it was opened under; a mapped
    region by an identifier, the file it maps and its length. *)
Definition File := string.

Record MMap : Type := mkMMap { m_id : nat; m_file : File; m_len : Z }.

Definition MMapSpan := list MMap.

Definition record (ev : event) (w : world) : world :=
  {| dirs := dirs w; files := files w; live := live w;
     log := log w ++ [ev] |}.

Definition fileSize (w : world) (name : string) : Z :=
  default 0 (files w !! name).

(** ** Paths

    [os.MkdirAll] finds the parent of a path by scanning the text of the
    path from its end: it skips the separators that end the path, then the
    last element, and takes what comes before the separator in front of
    that element; a path of one element, or an element right under the
    root, has no parent to make. *)
Definition isSeparator (c : Ascii.ascii) : bool :=
  Ascii.eqb c (Ascii.ascii_of_nat 47).

Fixpoint skipWhile (p : Ascii.ascii -> bool) (l : list Ascii.ascii)
  : list Ascii.ascii :=
  match l with
  | [] => []
  | c :: rest => if p c then skipWhile p rest else l
  end.

Definition parentOf (path : string) : option string :=
  let back := rev (String.list_ascii_of_string path) in
  let upto_i := skipWhile isSeparator back in
  let upto_j := skipWhile (fun c => negb (isSeparator c)) upto_i in
  match upto_j with
  | _ :: ((_ :: _) as parent) => Some (String.string_of_list_ascii (rev parent))
  | _ => None
  end.

(** A path and the parents above it, the path first.  A parent is
    shorter than its path, so the length of the path is fuel enough. *)
Fixpoint climb (fuel : nat) (path : string) : list string :=
  path ::
  match fuel with
  | O => []
  | S n =>
      match parentOf path with
      | Some parent => climb n parent
      | None => []
      end
  end.

Definition ancestors (path : string) : list string :=
  climb (String.length path) path.

(** What a call may do to directories and files: [after] keeps every
    directory and file of [before], no file shorter; the directories it
    adds are among [D], and the files outside [N] are as they were. *)
Definition extends (N D : gset string) (before after : world) : Prop :=
  dirs before ⊆ dirs after
  /\ dirs after ⊆ D ∪ dirs before
  /\ dom (files before) ⊆ dom (files after)
  /\ (forall x, fileSize before x <= fileSize after x)
  /\ (forall x, x ∉ N -> files after !! x = files before !! x).

Section Host.

Variable filepath_Join : list string -> string.
Variable filepath_Dir : string -> string.
Variable host : nat -> reply.

Definition refused (w : world) : option error :=
  match host (length (log w)) with
  | Refuse e => Some e
  | _ => None
  end.

(** [os.MkdirAll dir]: the directory and every parent above it that is
    missing are made; the call fails, making nothing, when the path or
    one of the parents above it is a regular file. *)
Definition os_MkdirAll (dir : string) (w : world) : world * option error :=
  let w1 := record (EMkdirAll dir) w in
  match refused w with
  | Some e => (w1, Some e)
  | None =>
      if decide (Exists (fun a => a ∈ dom (files w)) (ancestors dir))
      then (w1, Some "not a directory")
      else ({| dirs := list_to_set (ancestors dir) ∪ dirs w;
               files := files w; live := live w; log := log w1 |}, None)
  end.

(** [os.OpenFile name (O_CREATE|O_RDWR)]: an absent file is created
    empty. *)
Definition os_OpenFile (name : string) (w : world) : world * (File + error) :=
  let w1 := record (EOpenFile name) w in
  match refused w with
  | Some e => (w1, inr e)
  | None =>
      if decide (name ∈ dirs w) then (w1, inr "is a directory")
      else ({| dirs := dirs w; files := <[name := fileSize w name]> (files w);
               live := live w; log := log w1 |}, inl name)
  end.

Definition file_Stat (file : File) (w : world) : world * (Z + error) :=
  let w1 := record (EStat file) w in
  match refused w with
  | Some e => (w1, inr e)
  | None =>
      match files w !! file with
      | Some size => (w1, inl size)
      | None => (w1, inr "bad file descriptor")
      end
  end.

Definition file_Truncate (file : File) (size : Z) (w : world)
  : world * option error :=
  let w1 := record (ETruncate file size) w in
  match refused w with
  | Some e => (w1, Some e)
  | None =>
      ({| dirs := dirs w; files := <[file := size]> (files w);
          live := live w; log := log w1 |}, None)
  end.

(** The error of [file.Close] is dropped by the caller. *)
Definition file_Close (file : File) (w : world) : world :=
  record (EClose file) w.

(** [gommap.MapRegion fd 0 length ...]: the library is not part of this
    package; on success it hands back a region, normally of the length
    asked for. *)
Definition gommap_MapRegion (file : File) (length : Z) (w : world)
  : world * (MMap + error) :=
  let w1 := record (EMapRegion file length) w in
  let id := fresh (live w) in
  let mapped n :=
    ({| dirs := dirs w; files := files w; live := {[id]} ∪ live w;
        log := log w1 |}, inl (mkMMap id file n)) in
  match host (List.length (log w)) with
  | Refuse e => (w1, inr e)
  | Deviate n => mapped n
  | Proceed => mapped length
  end.

Definition MMap_UnsafeUnmap (m : MMap) (w : world) : world :=
  {| dirs := dirs w; files := files w; live := live w ∖ {[m_id m]};
     log := log w ++ [EUnmap (m_id m)] |}.

(** Modelled from the spec: package [mmap_span] is not under src; a span
    is the ordered sequence of mapped regions and closing it releases
    every region it holds. *)
Definition MMapSpan_Close (mms : MMapSpan) (w : world) : world :=
  foldl (fun w m => MMap_UnsafeUnmap m w) w mms.

Definition regions (mms : MMapSpan) : gset nat := list_to_set (m_id <$> mms).

Definition fileName (location name : string) (miFile : metainfo.FileInfo)
  : string :=
  filepath_Join ([location; name] ++ metainfo.Path miFile).

(** The state of the loop: the world, [mms] and [err]. *)
Definition loopState : Type := world * MMapSpan * option error.

(** The closure run for an opened file; [file.Close] is deferred, so it
    runs on every way out, also when the closure panics.  On a panic
    [err] is nil. *)
Definition mapFile (miFile : metainfo.FileInfo) (file : File)
    (mms : MMapSpan) (w : world) : outcome loopState :=
  let leave (w : world) (mms : MMapSpan) (err : option error) :=
    Returned (file_Close file w, mms, err) in
  let '(w, fi) := file_Stat file w in
  match fi with
  | inr e => leave w mms (Some e)
  | inl size =>
      let '(w, err) :=
        if size <? metainfo.Length miFile
        then file_Truncate file (metainfo.Length miFile) w
        else (w, None) in
      match err with
      | Some e => leave w mms (Some e)
      | None =>
          let '(w, r) := gommap_MapRegion file (metainfo.Length miFile) w in
          match r with
          | inr e => leave w mms (Some e)
          | inl mMap =>
              if negb (m_len mMap =? metainfo.Length miFile)
              then Panicked "mmap has wrong length"
              else leave w (mms ++ [mMap]) None
          end
      end
  end.

(** One turn of the loop over [metaInfo.Files]. *)
Definition visit (location name : string) (miFile : metainfo.FileInfo)
    (mms : MMapSpan) (w : world) : outcome loopState :=
  let fileName := fileName location name miFile in
  let '(w, err) := os_MkdirAll (filepath_Dir fileName) w in
  match err with
  | Some e => Returned (w, mms, Some e)
  | None =>
      let '(w, r) := os_OpenFile fileName w in
      match r with
      | inr e => Returned (w, mms, Some e)
      | inl file => mapFile miFile file mms w
      end
  end.

(** What a turn of the loop owes a file, whose path joins the location,
    the name of the torrent and the path elements of the file: between
    the worlds [before] and [after] the turn, the directory of the file
    and every parent above it have come to exist, and so has the file;
    the file has exactly its declared length if it was shorter and its
    old size otherwise; the calls were made in this order (the
    truncation, only for a shorter file, ahead of the mapping); and [m]
    maps the file over its declared length. *)
Definition prepared (location name : string) (miFile : metainfo.FileInfo)
    (before after : world) (m : MMap) : Prop :=
  let n := filepath_Join ([location; name] ++ metainfo.Path miFile) in
  let L := metainfo.Length miFile in
  let sz := fileSize before n in
  (forall d, d ∈ ancestors (filepath_Dir n) -> d ∈ dirs after)
  /\ files after !! n = Some (if sz <? L then L else sz)
  /\ log after =
       log before ++ [EMkdirAll (filepath_Dir n); EOpenFile n; EStat n]
       ++ (if sz <? L then [ETruncate n L] else [])
       ++ [EMapRegion n L; EClose n]
  /\ m_file m = n /\ m_len m = L.

(** Every file of [fs] is in place: its directory and the parents above
    it exist and the file is at least as long as declared. *)
Definition settled (location name : string) (fs : list metainfo.FileInfo)
    (w : world) : Prop :=
  forall miFile, miFile ∈ fs ->
    list_to_set (ancestors (filepath_Dir (fileName location name miFile)))
      ⊆ dirs w
    /\ exists size, files w !! fileName location name miFile = Some size
                   /\ metainfo.Length miFile <= size.

(** The names of the files of [fs], and the directories above them. *)
Definition fileNames (location name : string) (fs : list metainfo.FileInfo)
  : gset string :=
  list_to_set (fileName location name <$> fs).

Definition parentDirs (location name : string) (fs : list metainfo.FileInfo)
  : gset string :=
  list_to_set
    (fs ≫= fun f => ancestors (filepath_Dir (fileName location name f))).

Fixpoint visitAll (location name : string) (fs : list metainfo.FileInfo)
    (mms : MMapSpan) (w : world) : outcome loopState :=
  match fs with
  | [] => Returned (w, mms, None)
  | miFile :: rest =>
      match visit location name miFile mms w with
      | Panicked msg => Panicked msg
      | Returned (w', mms', Some e) => Returned (w', mms', Some e)
      | Returned (w', mms', None) => visitAll location name rest mms' w'
      end
  end.

(** [mmapTorrentData]: the deferred function closes the span and returns
    nil in its place when [err] is not nil. *)
Definition mmapTorrentData (metaInfo : metainfo.MetaInfo) (location : string)
    (w : world) : outcome loopState :=
  match visitAll location (metainfo.Name metaInfo)
                 (metainfo.Files metaInfo) [] w with
  | Panicked msg => Panicked msg
  | Returned (w', mms, Some e) => Returned (MMapSpan_Close mms w', [], Some e)
  | Returned (w', mms, None) => Returned (w', mms, None)
  end.

(** The function takes a [*metainfo.MetaInfo]; through a nil pointer the
    loop header [metaInfo.Files] panics before any call is made, and the
    deferred function finds [err] nil. *)
Definition nilDereference : string :=
  "runtime error: invalid memory address or nil pointer dereference".

Definition mmapTorrentData_ptr (metaInfo : option metainfo.MetaInfo)
    (location : string) (w : world) : outcome loopState :=
  match metaInfo with
  | None => Panicked nilDereference
  | Some mi => mmapTorrentData mi location w
  end.

End Host.

(** ** Sample hosts and inputs *)

(** Paths of clean relative names: joined with a slash, and cut at the
    last slash for the parent. *)
Definition sampleJoin (parts : list string) : string :=
  String.concat "/" parts.

Fixpoint cutLast (path : string) : option string :=
  match path with
  | EmptyString => None
  | String c rest =>
      match cutLast rest with
      | Some d => Some (String c d)
      | None => if Ascii.eqb c (Ascii.ascii_of_nat 47) then Some EmptyString else None
      end
  end.

Definition sampleDir (path : string) : string := default "." (cutLast path).

(** A host that refuses nothing, and one that refuses its k-th call. *)
Definition calm : nat -> reply := fun _ => Proceed.

Definition refusing (k : nat) (e : error) : nat -> reply :=
  fun i => if (i =? k)%nat then Refuse e else Proceed.

(** A host whose k-th call, if it maps a region, maps [n] bytes. *)
Definition deviating (k : nat) (n : Z) : nat -> reply :=
  fun i => if (i =? k)%nat then Deviate n else Proceed.

Definition emptyWorld : world :=
  {| dirs := ∅; files := ∅; live := ∅; log := [] |}.

(** A world in which the first sample file is there already, longer than
    declared. *)
Definition usedWorld : world :=
  {| dirs := ∅; files := {["data/album/a.bin" := 30000]}; live := ∅;
     log := [] |}.

Definition sampleA : metainfo.FileInfo :=
  {| metainfo.Length := 20000; metainfo.Path := ["a.bin"] |}.

Definition sampleB : metainfo.FileInfo :=
  {| metainfo.Length := 5; metainfo.Path := ["sub"; "b.bin"] |}.

Definition sampleInfo : metainfo.MetaInfo :=
  {| metainfo.Name := "album"; metainfo.Files := [sampleA; sampleB] |}.

End torrent.

(** Package [tracker]: the wire structures of the UDP tracker protocol.

    Modelled from the spec: the package's structure declarations and its
    [read]/[write] codec are not under src (only its tests are).  The
    structures carry the fields of section 4.3 of the specification, split
    the way the tests write them: a response is a [ResponseHeader] followed
    by its body, a request a [RequestHeader] followed by its body.  All
    integers are big-endian. *)
Module tracker.

(** ** Bytes and big-endian integers *)

Definition b2z (b : byte) : Z := Z.of_N (Byte.to_N b).

Definition z2b (z : Z) : byte :=
  default x00 (Byte.of_N (Z.to_N (z mod 256))).

(** The [n] bytes of [x], most significant first. *)
Fixpoint put_be (n : nat) (x : Z) : list byte :=
  match n with
  | O => []
  | S k => z2b (Z.shiftr x (8 * Z.of_nat k)) :: put_be k x
  end.

Definition be_val (bs : list byte) : Z :=
  fold_left (fun acc b => acc * 256 + b2z b) bs 0.

Definition to_signed (n : nat) (u : Z) : Z :=
  if 256 ^ Z.of_nat n <=? 2 * u then u - 256 ^ Z.of_nat n else u.

(** ** Decoders *)

Inductive codecError : Type :=
  | Truncated
  | MalformedPeerList.

Inductive result (A : Type) : Type :=
  | Ok (a : A)
  | Err (e : codecError).
Arguments Ok {A} a.
Arguments Err {A} e.

(** A decoder reads a value off the front of a buffer and hands back what
    is left. *)
Definition decoder (A : Type) : Type := list byte -> result (A * list byte).

Definition ret {A} (a : A) : decoder A := fun buf => Ok (a, buf).

Definition bind {A B} (d : decoder A) (k : A -> decoder B) : decoder B :=
  fun buf =>
    match d buf with
    | Ok (a, rest) => k a rest
    | Err e => Err e
    end.

#[global] Instance decoder_ret : MRet decoder := @ret.
#[global] Instance decoder_bind : MBind decoder :=
  fun A B k d => bind d k.

Definition get_bytes (n : nat) : decoder (list byte) :=
  fun buf =>
    if (length buf <? n)%nat then Err Truncated
    else Ok (take n buf, drop n buf).

Definition get_be (n : nat) : decoder Z :=
  bs ← get_bytes n; ret (be_val bs).

Definition get_sbe (n : nat) : decoder Z :=
  bs ← get_bytes n; ret (to_signed n (be_val bs)).

(** [d] fails with [Truncated] on every buffer shorter than [n]. *)
Definition truncates {A} (d : decoder A) (n : nat) : Prop :=
  forall buf, (length buf < n)%nat -> d buf = Err Truncated.

(** [d] has the fixed width [n]: it fails with [Truncated] on a shorter
    buffer and otherwise takes exactly the first [n] bytes. *)
Definition reads {A} (d : decoder A) (n : nat) : Prop :=
  truncates d n
  /\ forall buf, (n <= length buf)%nat -> exists a, d buf = Ok (a, drop n buf).

(** ** Structures *)

Definition connectMagic : Z := 0x41727101980.

Definition ActionConnect : Z := 0.
Definition ActionAnnounce : Z := 1.
Definition ActionScrape : Z := 2.
Definition ActionError : Z := 3.

Record RequestHeader : Type := mkRequestHeader {
  rq_ConnectionId : Z;     (* 64-bit *)
  rq_Action : Z;           (* 32-bit *)
  rq_TransactionId : Z     (* 32-bit *)
}.

Record ResponseHeader : Type := mkResponseHeader {
  Action : Z;              (* 32-bit *)
  TransactionId : Z        (* 32-bit *)
}.

Record ConnectionResponse : Type := mkConnectionResponse {
  ConnectionId : Z         (* 64-bit *)
}.

Record AnnounceRequest : Type := mkAnnounceRequest {
  InfoHash : list byte;    (* 20 bytes *)
  PeerId : list byte;      (* 20 bytes *)
  Downloaded : Z;          (* 64-bit *)
  Left : Z;                (* 64-bit *)
  Uploaded : Z;            (* 64-bit *)
  Event : Z;               (* 32-bit: none 0, completed 1, started 2, stopped 3 *)
  IPAddress : Z;           (* 32-bit, 0 for unspecified *)
  Key : Z;                 (* 32-bit *)
  NumWant : Z;             (* signed 32-bit, -1 for the tracker's default *)
  Port : Z                 (* 16-bit *)
}.

Record AnnounceResponseHeader : Type := mkAnnounceResponseHeader {
  Interval : Z;            (* 32-bit *)
  Leechers : Z;            (* 32-bit *)
  Seeders : Z              (* 32-bit *)
}.

Record CompactPeer : Type := mkCompactPeer {
  IP : byte * byte * byte * byte;
  PeerPort : Z             (* 16-bit *)
}.

(** ** Encoding *)

Definition encode_RequestHeader (h : RequestHeader) : list byte :=
  put_be 8 (rq_ConnectionId h) ++ put_be 4 (rq_Action h)
  ++ put_be 4 (rq_TransactionId h).

Definition encode_ResponseHeader (h : ResponseHeader) : list byte :=
  put_be 4 (Action h) ++ put_be 4 (TransactionId h).

Definition encode_ConnectionResponse (c : ConnectionResponse) : list byte :=
  put_be 8 (ConnectionId c).

Definition encode_AnnounceRequest (a : AnnounceRequest) : list byte :=
  InfoHash a ++ PeerId a ++ put_be 8 (Downloaded a) ++ put_be 8 (Left a)
  ++ put_be 8 (Uploaded a) ++ put_be 4 (Event a) ++ put_be 4 (IPAddress a)
  ++ put_be 4 (Key a) ++ put_be 4 (NumWant a) ++ put_be 2 (Port a).

Definition encode_AnnounceResponseHeader (h : AnnounceResponseHeader)
  : list byte :=
  put_be 4 (Interval h) ++ put_be 4 (Leechers h) ++ put_be 4 (Seeders h).

Definition encode_CompactPeer (p : CompactPeer) : list byte :=
  let '(a, b, c, d) := IP p in
  [a; b; c; d] ++ put_be 2 (PeerPort p).

(** [CompactPeers.WriteBinary]: the peers one after the other. *)
Definition encode_CompactPeers (ps : list CompactPeer) : list byte :=
  flat_map encode_CompactPeer ps.

(** ** Decoding *)

Definition decode_RequestHeader : decoder RequestHeader :=
  c ← get_be 8; a ← get_be 4; t ← get_be 4;
  ret (mkRequestHeader c a t).

Definition decode_ResponseHeader : decoder ResponseHeader :=
  a ← get_be 4; t ← get_be 4; ret (mkResponseHeader a t).

Definition decode_ConnectionResponse : decoder ConnectionResponse :=
  c ← get_be 8; ret (mkConnectionResponse c).

Definition decode_AnnounceRequest : decoder AnnounceRequest :=
  ih ← get_bytes 20; pid ← get_bytes 20;
  dl ← get_be 8; lf ← get_be 8; ul ← get_be 8;
  ev ← get_be 4; ip ← get_be 4; key ← get_be 4;
  nw ← get_sbe 4; port ← get_be 2;
  ret (mkAnnounceRequest ih pid dl lf ul ev ip key nw port).

Definition decode_AnnounceResponseHeader : decoder AnnounceResponseHeader :=
  i ← get_be 4; l ← get_be 4; s ← get_be 4;
  ret (mkAnnounceResponseHeader i l s).

(** A compact peer list takes all the bytes that remain, six at a time. *)
Fixpoint decode_CompactPeers (buf : list byte) : result (list CompactPeer) :=
  match buf with
  | [] => Ok []
  | a :: b :: c :: d :: p1 :: p2 :: rest =>
      match decode_CompactPeers rest with
      | Ok ps => Ok (mkCompactPeer (a, b, c, d) (be_val [p1; p2]) :: ps)
      | Err e => Err e
      end
  | _ => Err MalformedPeerList
  end.

Definition get_peers : decoder (list CompactPeer) :=
  fun buf =>
    match decode_CompactPeers buf with
    | Ok ps => Ok (ps, [])
    | Err e => Err e
    end.

(** ** The codec over every defined structure *)

Inductive structure : Type :=
  | SResponseHeader
  | SConnectRequest
  | SConnectResponse
  | SAnnounceRequest
  | SAnnounceResponseHeader
  | SAnnounceResponse.

Definition value (s : structure) : Type :=
  match s with
  | SResponseHeader => ResponseHeader
  | SConnectRequest => RequestHeader
  | SConnectResponse => ResponseHeader * ConnectionResponse
  | SAnnounceRequest => RequestHeader * AnnounceRequest
  | SAnnounceResponseHeader => ResponseHeader * AnnounceResponseHeader
  | SAnnounceResponse =>
      ResponseHeader * AnnounceResponseHeader * list CompactPeer
  end.

(** The fixed width of a structure; for an announce response, of the part
    before the peers. *)
Definition width (s : structure) : nat :=
  match s with
  | SResponseHeader => 8
  | SConnectRequest => 16
  | SConnectResponse => 16
  | SAnnounceRequest => 98
  | SAnnounceResponseHeader => 20
  | SAnnounceResponse => 20
  end.

Definition encode (s : structure) : value s -> list byte :=
  match s return value s -> list byte with
  | SResponseHeader => encode_ResponseHeader
  | SConnectRequest => encode_RequestHeader
  | SConnectResponse => fun '(h, c) =>
      encode_ResponseHeader h ++ encode_ConnectionResponse c
  | SAnnounceRequest => fun '(h, a) =>
      encode_RequestHeader h ++ encode_AnnounceRequest a
  | SAnnounceResponseHeader => fun '(h, a) =>
      encode_ResponseHeader h ++ encode_AnnounceResponseHeader a
  | SAnnounceResponse => fun '(h, a, ps) =>
      encode_ResponseHeader h ++ encode_AnnounceResponseHeader a
      ++ encode_CompactPeers ps
  end.

Definition parse (s : structure) : decoder (value s) :=
  match s return decoder (value s) with
  | SResponseHeader => decode_ResponseHeader
  | SConnectRequest => decode_RequestHeader
  | SConnectResponse =>
      h ← decode_ResponseHeader; c ← decode_ConnectionResponse;
      ret (h, c)
  | SAnnounceRequest =>
      h ← decode_RequestHeader; a ← decode_AnnounceRequest; ret (h, a)
  | SAnnounceResponseHeader =>
      h ← decode_ResponseHeader; a ← decode_AnnounceResponseHeader;
      ret (h, a)
  | SAnnounceResponse =>
      h ← decode_ResponseHeader; a ← decode_AnnounceResponseHeader;
      ps ← get_peers; ret (h, a, ps)
  end.

(** [decode bytes into]: the value and the number of bytes consumed. *)
Definition decode (s : structure) (buf : list byte) : result (value s * nat) :=
  match parse s buf with
  | Ok (v, rest) => Ok (v, (length buf - length rest)%nat)
  | Err e => Err e
  end.

(** ** Values that fit their fields *)

Definition fits (n : nat) (x : Z) : Prop := 0 <= x < 256 ^ Z.of_nat n.

Definition fits_signed (n : nat) (x : Z) : Prop :=
  - 256 ^ Z.of_nat n <= 2 * x < 256 ^ Z.of_nat n.

Definition wf_RequestHeader (h : RequestHeader) : Prop :=
  fits 8 (rq_ConnectionId h) /\ fits 4 (rq_Action h)
  /\ fits 4 (rq_TransactionId h).

Definition wf_ResponseHeader (h : ResponseHeader) : Prop :=
  fits 4 (Action h) /\ fits 4 (TransactionId h).

Definition wf_ConnectionResponse (c : ConnectionResponse) : Prop :=
  fits 8 (ConnectionId c).

Definition wf_AnnounceRequest (a : AnnounceRequest) : Prop :=
  length (InfoHash a) = 20%nat /\ length (PeerId a) = 20%nat
  /\ fits 8 (Downloaded a) /\ fits 8 (Left a) /\ fits 8 (Uploaded a)
  /\ fits 4 (Event a) /\ fits 4 (IPAddress a) /\ fits 4 (Key a)
  /\ fits_signed 4 (NumWant a) /\ fits 2 (Port a).

Definition wf_AnnounceResponseHeader (h : AnnounceResponseHeader) : Prop :=
  fits 4 (Interval h) /\ fits 4 (Leechers h) /\ fits 4 (Seeders h).

Definition wf_CompactPeer (p : CompactPeer) : Prop := fits 2 (PeerPort p).

Definition wf (s : structure) : value s -> Prop :=
  match s return value s -> Prop with
  | SResponseHeader => wf_ResponseHeader
  | SConnectRequest => wf_RequestHeader
  | SConnectResponse => fun '(h, c) =>
      wf_ResponseHeader h /\ wf_ConnectionResponse c
  | SAnnounceRequest => fun '(h, a) =>
      wf_RequestHeader h /\ wf_AnnounceRequest a
  | SAnnounceResponseHeader => fun '(h, a) =>
      wf_ResponseHeader h /\ wf_AnnounceResponseHeader a
  | SAnnounceResponse => fun '(h, a, ps) =>
      wf_ResponseHeader h /\ wf_AnnounceResponseHeader a
      /\ Forall wf_CompactPeer ps
  end.

(** ** Integer conversions

    Go's conversions to [int16] and [uint16], as [TestConvertInt16ToInt]
    chains them: the low 16 bits are kept, read as a signed or as an
    unsigned number. *)
Definition uint16 (z : Z) : Z := z mod 2 ^ 16.

Definition int16 (z : Z) : Z := to_signed 2 (z mod 2 ^ 16).

(** ** Sample values *)

(** The two peers of [TestMarshalAnnounceResponse]: 127.0.0.1 port 2 and
    255.0.0.3 port 4. *)
Definition peerA : CompactPeer := mkCompactPeer (x7f, x00, x00, x01) 2.
Definition peerB : CompactPeer := mkCompactPeer (xff, x00, x00, x03) 4.

Definition peerBytes : list byte :=
  [x7f; x00; x00; x01; x00; x02; xff; x00; x00; x03; x00; x04].

Definition sampleConnect : RequestHeader :=
  mkRequestHeader connectMagic ActionConnect 0x1234abcd.

Definition sampleResponse : ResponseHeader :=
  mkResponseHeader ActionAnnounce 0x1234abcd.

Definition sampleCounts : AnnounceResponseHeader :=
  mkAnnounceResponseHeader 1800 2 5.

Definition sampleAnnounce : AnnounceRequest :=
  {| InfoHash := replicate 20 xa3; PeerId := replicate 20 x2d;
     Downloaded := 0; Left := 20000; Uploaded := 0; Event := 2;
     IPAddress := 0; Key := 77; NumWant := -1; Port := 6881 |}.

End tracker.

(** * Properties of package [torrent] *)

Section TorrentFacts.

Import torrent.

(** ** Completeness of a piece *)

(** C1: a piece is complete exactly when its pending-chunk set is empty
    and it has been hashed at least once; with no pending chunk but
    [EverHashed] false it is not complete. *)
Theorem piece_Complete_iff (p : piece) :
  (Complete p = true <->
     PendingChunkSpecs p = ∅ /\ EverHashed p = true)
  /\ (forall h hashing queued,
        Complete (mkPiece h ∅ hashing queued false) = false).
Proof.
  split.
  - unfold Complete. rewrite andb_true_iff, Nat.eqb_eq.
    by rewrite size_empty_iff, leibniz_equiv_iff.
  - intros h hashing queued. unfold Complete. simpl.
    apply andb_false_r.
Qed.

(** ** The terminal chunk *)

Lemma wrap_small bits z : 0 <= z < 2 ^ bits -> wrap bits z = z.
Proof. intros H. unfold wrap. by apply Z.mod_small. Qed.

Lemma chunkSize_fits bits : 14 < bits -> chunkSize < 2 ^ bits.
Proof.
  intros H. change chunkSize with (2 ^ 14).
  apply Z.pow_lt_mono_r; lia.
Qed.

(** The unwrapped value of [Begin]. *)
Lemma lastChunkSpec_Begin bits L :
  14 < bits -> 0 < L < 2 ^ bits ->
  Begin (lastChunkSpec bits L) = (L - 1) / chunkSize * chunkSize.
Proof.
  intros Hb HL. unfold lastChunkSpec. cbn [Begin].
  assert (0 < chunkSize) as Hc by reflexivity.
  pose proof (Z.div_pos (L - 1) chunkSize ltac:(lia) Hc).
  pose proof (Z.mul_div_le (L - 1) chunkSize Hc).
  rewrite (wrap_small bits (L - 1)) by lia.
  rewrite (wrap_small bits ((L - 1) / chunkSize)) by nia.
  apply wrap_small. lia.
Qed.

Lemma lastChunkSpec_Length bits L :
  14 < bits -> 0 < L < 2 ^ bits ->
  Length (lastChunkSpec bits L) = L - (L - 1) / chunkSize * chunkSize.
Proof.
  intros Hb HL.
  pose proof (lastChunkSpec_Begin bits L Hb HL) as HB.
  unfold lastChunkSpec in *. cbn [Begin Length] in *. rewrite HB.
  assert (0 < chunkSize) as Hc by reflexivity.
  pose proof (Z.mul_div_le (L - 1) chunkSize Hc).
  pose proof (Z.div_pos (L - 1) chunkSize ltac:(lia) Hc).
  apply wrap_small. lia.
Qed.

(** C2: for a piece length [L > 0] that the integer type holds, the
    terminal chunk begins at the largest multiple of the chunk size
    (16384) strictly below [L] and runs to the end of the piece, so its
    length lies in (0, 16384]; 32768 gives (16384, 16384) and 20000 gives
    (16384, 3616). *)
Theorem lastChunkSpec_terminal (bits L : Z) :
  14 < bits -> 0 < L < 2 ^ bits ->
  let cs := lastChunkSpec bits L in
  chunkSize = 16384
  /\ (Begin cs mod chunkSize = 0 /\ Begin cs < L
      /\ forall m, m mod chunkSize = 0 -> m < L -> m <= Begin cs)
  /\ Length cs = L - Begin cs
  /\ Begin cs + Length cs = L
  /\ 0 < Length cs <= chunkSize
  /\ (L = 32768 -> cs = mkChunkSpec 16384 16384)
  /\ (L = 20000 -> cs = mkChunkSpec 16384 3616).
Proof.
  intros Hb HL cs.
  pose proof (lastChunkSpec_Begin bits L Hb HL) as HB.
  pose proof (lastChunkSpec_Length bits L Hb HL) as HLen.
  fold cs in HB, HLen.
  assert (0 < chunkSize) as Hc by reflexivity.
  pose proof (Z.mul_div_le (L - 1) chunkSize Hc) as Hle.
  pose proof (Z.mul_succ_div_gt (L - 1) chunkSize Hc) as Hgt.
  split; [reflexivity|].
  split; [|split; [|split; [|split; [|split]]]].
  - rewrite HB. split; [apply Z.mod_mul; lia|]. split; [lia|].
    intros m Hm HmL.
    apply Z.mod_divide in Hm; [|lia]. destruct Hm as [k ->].
    apply Z.mul_le_mono_nonneg_r; [lia|].
    apply Z.div_le_lower_bound; lia.
  - lia.
  - lia.
  - lia.
  - intros ->. destruct cs as [b l]. cbn [Begin Length] in *.
    f_equal; [rewrite HB | rewrite HLen]; reflexivity.
  - intros ->. destruct cs as [b l]. cbn [Begin Length] in *.
    f_equal; [rewrite HB | rewrite HLen]; reflexivity.
Qed.

Lemma lastChunkSpec_terminal_witness :
  let cs := lastChunkSpec 32 20000 in
  chunkSize = 16384
  /\ (Begin cs mod chunkSize = 0 /\ Begin cs < 20000
      /\ forall m, m mod chunkSize = 0 -> m < 20000 -> m <= Begin cs)
  /\ Length cs = 20000 - Begin cs
  /\ Begin cs + Length cs = 20000
  /\ 0 < Length cs <= chunkSize
  /\ (20000 = 32768 -> cs = mkChunkSpec 16384 16384)
  /\ (20000 = 20000 -> cs = mkChunkSpec 16384 3616).
Proof. apply (lastChunkSpec_terminal 32 20000); lia. Defined.

(** ** The pending-bytes comparator *)

Lemma Less_lookup me i j a b pa pb :
  index (Indices me) i = Some a -> index (Indices me) j = Some b ->
  index (Pending me) a = Some pa -> index (Pending me) b = Some pb ->
  Less me i j = Some (pa <? pb).
Proof.
  intros Hi Hj Ha Hb. unfold Less.
  rewrite Hi. simpl. rewrite Ha. simpl. rewrite Hj. simpl.
  rewrite Hb. reflexivity.
Qed.

(** C3, as stated, fails: pieces 0 and 1 both have 5 bytes pending, and
    the comparator does not rank index 0 before index 1. *)
Lemma Less_ties_counterexample :
  ~ ties_broken_by_index {| Pending := [5; 5]; Indices := [0; 1] |}.
Proof.
  intros H.
  specialize (H 0 1 0 1 5 5 eq_refl eq_refl eq_refl eq_refl eq_refl
                ltac:(lia)).
  vm_compute in H. discriminate H.
Qed.

(** C3, amended: the comparator orders positions by pending-byte count
    alone; [Less i j] holds exactly when the piece at position [i] has
    strictly fewer bytes pending than the piece at position [j], so that
    with equal counts it ranks neither position before the other,
    whatever the piece indices. *)
Theorem Less_by_pending_only me i j a b pa pb :
  index (Indices me) i = Some a -> index (Indices me) j = Some b ->
  index (Pending me) a = Some pa -> index (Pending me) b = Some pb ->
  Less me i j = Some (pa <? pb)
  /\ (pa = pb -> Less me i j = Some false /\ Less me j i = Some false).
Proof.
  intros Hi Hj Ha Hb. split.
  - by apply (Less_lookup me i j a b).
  - intros ->.
    rewrite (Less_lookup me i j a b pb pb), (Less_lookup me j i b a pb pb)
      by assumption.
    by rewrite Z.ltb_irrefl.
Qed.

Lemma Less_by_pending_only_witness :
  let me := {| Pending := [7; 5; 5]; Indices := [2; 0; 1] |} in
  Less me 0 1 = Some (5 <? 7)
  /\ (5 = 7 -> Less me 0 1 = Some false /\ Less me 1 0 = Some false).
Proof.
  apply (Less_by_pending_only {| Pending := [7; 5; 5]; Indices := [2; 0; 1] |}
           0 1 2 0 5 7); reflexivity.
Defined.

(** ** Hash sums of the wrong size *)

Lemma copy_same_length dst src :
  length dst = length src -> copy dst src = (src, length dst).
Proof.
  intros H. unfold copy. rewrite H, Nat.min_id.
  rewrite <- H at 2. rewrite drop_all, app_nil_r.
  by rewrite firstn_all.
Qed.

(** C4, as stated, fails: an empty slice is not 20 bytes long, and both
    functions end in a panic on it. *)
Lemma hash_sum_mismatch_counterexample :
  length ([] : list byte) <> hashLen
  /\ aborts (BytesInfoHash [])
  /\ aborts (copyHashSum zeroHash []).
Proof. split; [discriminate|]. split; exact I. Qed.

(** C4, amended: on a byte slice whose length is not 20, [BytesInfoHash]
    panics with "bad infohash bytes", and [copyHashSum] panics with "hash
    sum sizes differ" whenever the lengths of its two slices differ (so
    for every 20-byte destination); neither has a failure value to
    return.  With equal lengths both return the copied bytes. *)
Theorem hash_sum_mismatch_panics (b : list byte) :
  length b <> hashLen ->
  BytesInfoHash b = Panicked "bad infohash bytes"
  /\ (forall dst, length dst <> length b ->
        copyHashSum dst b = Panicked "hash sum sizes differ")
  /\ (forall dst, length dst = hashLen ->
        copyHashSum dst b = Panicked "hash sum sizes differ")
  /\ (forall src, length src = hashLen -> BytesInfoHash src = Returned src)
  /\ (forall dst src, length dst = length src ->
        copyHashSum dst src = Returned src).
Proof.
  intros Hb.
  assert (forall dst, length dst <> length b ->
            copyHashSum dst b = Panicked "hash sum sizes differ") as Hcopy.
  { intros dst Hd. unfold copyHashSum.
    apply Nat.eqb_neq in Hd. by rewrite Hd. }
  split; [|split; [exact Hcopy|split; [|split]]].
  - unfold BytesInfoHash.
    assert (length zeroHash = hashLen) as -> by reflexivity.
    apply Nat.eqb_neq in Hb. by rewrite Hb.
  - intros dst Hd. apply Hcopy. congruence.
  - intros src Hs. unfold BytesInfoHash.
    assert (length zeroHash = hashLen) as Hz by reflexivity.
    rewrite Hz, Hs, Nat.eqb_refl. cbn [negb].
    rewrite copy_same_length by congruence.
    by rewrite Hz, Nat.eqb_refl.
  - intros dst src Hd. unfold copyHashSum.
    rewrite Hd, Nat.eqb_refl. cbn [negb].
    rewrite copy_same_length by assumption.
    by rewrite Hd, Nat.eqb_refl.
Qed.

Lemma hash_sum_mismatch_panics_witness :
  BytesInfoHash [x01; x02; x03] = Panicked "bad infohash bytes"
  /\ (forall dst, length dst <> length [x01; x02; x03] ->
        copyHashSum dst [x01; x02; x03] = Panicked "hash sum sizes differ")
  /\ (forall dst, length dst = hashLen ->
        copyHashSum dst [x01; x02; x03] = Panicked "hash sum sizes differ")
  /\ (forall src, length src = hashLen -> BytesInfoHash src = Returned src)
  /\ (forall dst src, length dst = length src ->
        copyHashSum dst src = Returned src).
Proof. apply (hash_sum_mismatch_panics [x01; x02; x03]). discriminate. Defined.

End TorrentFacts.

(** * Properties of [mmapTorrentData] *)

Section MmapFacts.

Import torrent.

Variable filepath_Join : list string -> string.
Variable filepath_Dir : string -> string.
Variable host : nat -> reply.

Abbreviation visit := (visit filepath_Join filepath_Dir host).
Abbreviation visitAll := (visitAll filepath_Join filepath_Dir host).
Abbreviation fileName := (fileName filepath_Join).

(** *** Paths and the parents above them *)

Lemma ancestors_self path : path ∈ ancestors path.
Proof.
  unfold ancestors. destruct (String.length path); cbn; apply list_elem_of_here.
Qed.

Lemma length_skipWhile p l : (length (skipWhile p l) <= length l)%nat.
Proof.
  induction l as [|c l IH]; cbn; [lia|]. destruct (p c); cbn; lia.
Qed.

Lemma length_string_of_list l :
  String.length (String.string_of_list_ascii l) = length l.
Proof. induction l as [|c l IH]; cbn; [done|by rewrite IH]. Qed.

Lemma length_list_of_string path :
  length (String.list_ascii_of_string path) = String.length path.
Proof. induction path as [|c path IH]; cbn; [done|by rewrite IH]. Qed.

Lemma parentOf_shorter path parent :
  parentOf path = Some parent ->
  (String.length parent < String.length path)%nat.
Proof.
  unfold parentOf.
  set (back := rev (String.list_ascii_of_string path)).
  set (upto_i := skipWhile isSeparator back).
  pose proof (length_skipWhile isSeparator back) as Hi.
  pose proof (length_skipWhile (fun c => negb (isSeparator c)) upto_i) as Hj.
  fold upto_i in Hi.
  destruct (skipWhile (fun c => negb (isSeparator c)) upto_i)
    as [|c [|c' rest]]; try discriminate.
  intros [= <-]. rewrite length_string_of_list, length_app, length_rev.
  assert (length back = String.length path) as Hback
    by (unfold back; by rewrite length_rev, length_list_of_string).
  cbn [length] in *. lia.
Qed.

Lemma climb_closed fuel path a parent :
  (String.length path <= fuel)%nat ->
  a ∈ climb fuel path -> parentOf a = Some parent ->
  parent ∈ climb fuel path.
Proof.
  revert path. induction fuel as [|fuel IH]; intros path Hlen Ha Hp.
  - cbn in Ha. apply list_elem_of_singleton in Ha as ->.
    apply parentOf_shorter in Hp. lia.
  - cbn [climb] in *. apply elem_of_cons in Ha as [->|Ha].
    + rewrite Hp. apply list_elem_of_further.
      destruct fuel; cbn; apply list_elem_of_here.
    + destruct (parentOf path) as [q|] eqn:Hq; [|by apply elem_of_nil in Ha].
      apply list_elem_of_further. apply IH; [|done|done].
      apply parentOf_shorter in Hq. lia.
Qed.

(** The parents above a path are all there: the fuel does not cut the
    climb short. *)
Lemma ancestors_closed path a parent :
  a ∈ ancestors path -> parentOf a = Some parent -> parent ∈ ancestors path.
Proof. apply climb_closed. done. Qed.

(** *** What each call does to the world *)

Lemma os_MkdirAll_inv d w w1 err :
  os_MkdirAll host d w = (w1, err) ->
  files w1 = files w /\ live w1 = live w
  /\ log w1 = log w ++ [EMkdirAll d]
  /\ match err with
     | None => dirs w1 = list_to_set (ancestors d) ∪ dirs w
     | Some _ => dirs w1 = dirs w
     end.
Proof.
  unfold os_MkdirAll. intros H.
  repeat case_match; simplify_eq/=; done.
Qed.

Lemma os_OpenFile_inv n w w1 r :
  os_OpenFile host n w = (w1, r) ->
  dirs w1 = dirs w /\ live w1 = live w
  /\ log w1 = log w ++ [EOpenFile n]
  /\ match r with
     | inl file => file = n /\ files w1 = <[n := fileSize w n]> (files w)
     | inr _ => files w1 = files w
     end.
Proof.
  unfold os_OpenFile. intros H.
  repeat case_match; simplify_eq/=; done.
Qed.

Lemma file_Stat_inv file w w1 r :
  file_Stat host file w = (w1, r) ->
  dirs w1 = dirs w /\ files w1 = files w /\ live w1 = live w
  /\ log w1 = log w ++ [EStat file]
  /\ match r with
     | inl size => files w !! file = Some size
     | inr _ => True
     end.
Proof.
  unfold file_Stat. intros H.
  repeat case_match; simplify_eq/=; done.
Qed.

Lemma file_Truncate_inv file size w w1 err :
  file_Truncate host file size w = (w1, err) ->
  dirs w1 = dirs w /\ live w1 = live w
  /\ log w1 = log w ++ [ETruncate file size]
  /\ match err with
     | None => files w1 = <[file := size]> (files w)
     | Some _ => files w1 = files w
     end.
Proof.
  unfold file_Truncate. intros H.
  repeat case_match; simplify_eq/=; done.
Qed.

Lemma gommap_MapRegion_inv file len w w1 r :
  gommap_MapRegion host file len w = (w1, r) ->
  dirs w1 = dirs w /\ files w1 = files w
  /\ log w1 = log w ++ [EMapRegion file len]
  /\ match r with
     | inl m => m_id m = fresh (live w) /\ m_file m = file
                /\ live w1 = {[m_id m]} ∪ live w
     | inr _ => live w1 = live w
     end.
Proof.
  unfold gommap_MapRegion. intros H.
  repeat case_match; simplify_eq/=; done.
Qed.

(** *** One turn of the loop *)

(** A turn that ends without error has made the directory and the file,
    grown the file if it was too short, and appended one region. *)
Lemma visit_ok loc nm f mms w w' mms' :
  visit loc nm f mms w = Returned (w', mms', None) ->
  let n := fileName loc nm f in
  let L := metainfo.Length f in
  let sz := fileSize w n in
  dirs w' = list_to_set (ancestors (filepath_Dir n)) ∪ dirs w
  /\ files w' = <[n := Z.max sz L]> (files w)
  /\ live w' = {[fresh (live w)]} ∪ live w
  /\ mms' = mms ++ [mkMMap (fresh (live w)) n L]
  /\ log w' = log w ++ [EMkdirAll (filepath_Dir n); EOpenFile n; EStat n]
                ++ (if sz <? L then [ETruncate n L] else [])
                ++ [EMapRegion n L; EClose n].
Proof.
  intros H n L sz. unfold torrent.visit in H. fold n in H.
  destruct (os_MkdirAll host (filepath_Dir n) w) as [w1 e1] eqn:E1.
  apply os_MkdirAll_inv in E1 as (F1 & V1 & G1 & D1).
  destruct e1 as [e|]; [discriminate|].
  destruct (os_OpenFile host n w1) as [w2 r2] eqn:E2.
  apply os_OpenFile_inv in E2 as (D2 & V2 & G2 & F2).
  destruct r2 as [file|e]; [|discriminate]. destruct F2 as [-> F2].
  unfold mapFile in H.
  destruct (file_Stat host n w2) as [w3 r3] eqn:E3.
  apply file_Stat_inv in E3 as (D3 & F3 & V3 & G3 & S3).
  destruct r3 as [size|e]; [|discriminate].
  assert (size = sz) as ->.
  { rewrite F2, lookup_insert_eq in S3. injection S3 as <-.
    unfold sz, fileSize. by rewrite F1. }
  fold L in H.
  destruct (if sz <? L then file_Truncate host n L w3 else (w3, None))
    as [w4 e4] eqn:E4.
  destruct e4 as [e|]; [discriminate|].
  destruct (gommap_MapRegion host n L w4) as [w5 r5] eqn:E5.
  apply gommap_MapRegion_inv in E5 as (D5 & F5 & G5 & M5).
  destruct r5 as [m|e]; [|discriminate].
  destruct M5 as (I5 & N5 & V5).
  destruct (negb (m_len m =? L)) eqn:Hlen; [discriminate|].
  apply negb_false_iff, Z.eqb_eq in Hlen.
  injection H as <- <-. unfold file_Close, record. cbn [dirs files live log].
  assert (m = mkMMap (fresh (live w)) n L) as ->.
  { destruct m as [i fl l]. cbn in *. subst.
    destruct (sz <? L) eqn:Hsz.
    - apply file_Truncate_inv in E4 as (_ & V4 & _). congruence.
    - injection E4 as <-. congruence. }
  cbn [m_id] in *.
  destruct (sz <? L) eqn:Hsz.
  - apply file_Truncate_inv in E4 as (D4 & V4 & G4 & F4).
    apply Z.ltb_lt in Hsz.
    rewrite D5, D4, D3, D2, D1, F5, F4, F3, F2, F1, V5, V4, V3, V2, V1,
      G5, G4, G3, G2, G1.
    rewrite insert_insert_eq, Z.max_r by lia.
    rewrite <- !app_assoc. done.
  - injection E4 as <-. apply Z.ltb_ge in Hsz.
    assert (fileSize w1 n = sz) as Hsame
      by (unfold sz, fileSize; by rewrite F1).
    rewrite D5, D3, D2, D1, F5, F3, F2, F1, V5, V3, V2, V1, G5, G3, G2, G1.
    rewrite Hsame, Z.max_l by lia.
    rewrite <- !app_assoc. done.
Qed.

(** A turn that ends with an error has appended no region and leaves no
    new region live. *)
Lemma visit_err loc nm f mms w w' mms' e :
  visit loc nm f mms w = Returned (w', mms', Some e) ->
  mms' = mms /\ live w' = live w.
Proof.
  intros H. unfold torrent.visit in H.
  set (n := fileName loc nm f) in *. set (L := metainfo.Length f) in *.
  destruct (os_MkdirAll host (filepath_Dir n) w) as [w1 e1] eqn:E1.
  apply os_MkdirAll_inv in E1 as (F1 & V1 & G1 & D1).
  destruct e1 as [e1|]; [injection H as <- <- <-; done|].
  destruct (os_OpenFile host n w1) as [w2 r2] eqn:E2.
  apply os_OpenFile_inv in E2 as (D2 & V2 & G2 & F2).
  destruct r2 as [file|e2]; [|injection H as <- <- <-; split; congruence].
  destruct F2 as [-> F2]. unfold mapFile in H.
  destruct (file_Stat host n w2) as [w3 r3] eqn:E3.
  apply file_Stat_inv in E3 as (D3 & F3 & V3 & G3 & S3).
  destruct r3 as [size|e3];
    [|injection H as <- <- <-; split; [done|cbn; congruence]].
  fold L in H.
  destruct (if size <? L then file_Truncate host n L w3 else (w3, None))
    as [w4 e4] eqn:E4.
  assert (live w4 = live w3) as V4.
  { destruct (size <? L).
    - by apply file_Truncate_inv in E4 as (_ & V4 & _).
    - by injection E4 as <-. }
  destruct e4 as [e4|];
    [injection H as <- <- <-; split; [done|cbn; congruence]|].
  destruct (gommap_MapRegion host n L w4) as [w5 r5] eqn:E5.
  apply gommap_MapRegion_inv in E5 as (D5 & F5 & G5 & M5).
  destruct r5 as [m|e5];
    [|injection H as <- <- <-; split; [done|cbn; congruence]].
  destruct (negb (m_len m =? L)); discriminate.
Qed.

(** *** The whole loop *)

Lemma fileSize_insert w w' n v x :
  files w' = <[n := v]> (files w) -> fileSize w n <= v ->
  fileSize w x <= fileSize w' x.
Proof.
  intros F Hv. unfold fileSize in *. rewrite F.
  destruct (decide (n = x)) as [->|Hne].
  - by rewrite lookup_insert_eq.
  - by rewrite lookup_insert_ne.
Qed.

Lemma visitAll_app loc nm pre post mms w :
  visitAll loc nm (pre ++ post) mms w =
  match visitAll loc nm pre mms w with
  | Returned (w1, mms1, None) => visitAll loc nm post mms1 w1
  | other => other
  end.
Proof.
  revert mms w. induction pre as [|f pre IH]; intros mms w; [done|].
  cbn [app torrent.visitAll].
  destruct (visit loc nm f mms w) as [[[w1 mms1] [e|]]|msg]; [done| |done].
  apply IH.
Qed.

(** A loop that ends without error has only added directories, files and
    bytes, and one region per file. *)
Lemma visitAll_mono loc nm fs mms w w' mms' :
  visitAll loc nm fs mms w = Returned (w', mms', None) ->
  dirs w ⊆ dirs w'
  /\ dom (files w) ⊆ dom (files w')
  /\ (forall x, fileSize w x <= fileSize w' x)
  /\ exists added, mms' = mms ++ added /\ length added = length fs.
Proof.
  revert mms w. induction fs as [|f fs IH]; intros mms w H.
  - injection H as <- <-. split_and!; try done.
    exists []. by rewrite app_nil_r.
  - cbn [torrent.visitAll] in H.
    destruct (visit loc nm f mms w) as [[[w1 mms1] [e|]]|msg] eqn:E;
      [discriminate| |discriminate].
    apply visit_ok in E as (D & F & _ & M & _).
    apply IH in H as (D' & F' & S' & added & -> & Hlen).
    split_and!.
    + set_solver.
    + rewrite <- F', F, dom_insert_L. set_solver.
    + intros x. etrans; [|apply S'].
      eapply fileSize_insert; [exact F|lia].
    + exists (mkMMap (fresh (live w)) (fileName loc nm f)
                (metainfo.Length f) :: added).
      rewrite M, <- app_assoc. split; [done|]. cbn. by rewrite Hlen.
Qed.

(** However the loop ends, the regions it appended are exactly the ones
    that became live, and none of them was live before. *)
Lemma visitAll_live loc nm fs mms w w' mms' err :
  visitAll loc nm fs mms w = Returned (w', mms', err) ->
  exists added,
    mms' = mms ++ added
    /\ live w' = regions added ∪ live w
    /\ regions added ## live w.
Proof.
  unfold regions.
  revert mms w. induction fs as [|f fs IH]; intros mms w H.
  - injection H as <- <- <-. exists []. rewrite app_nil_r.
    split_and!; [done|set_solver|set_solver].
  - cbn [torrent.visitAll] in H.
    destruct (visit loc nm f mms w) as [[[w1 mms1] [e|]]|msg] eqn:E;
      [| |discriminate].
    + injection H as <- <- <-. apply visit_err in E as [-> V].
      exists []. rewrite app_nil_r.
      split_and!; [done|set_solver|set_solver].
    + apply visit_ok in E as (_ & _ & V & M & _).
      apply IH in H as (added & -> & V' & Hdisj).
      pose proof (is_fresh (live w)) as Hfresh.
      exists (mkMMap (fresh (live w)) (fileName loc nm f)
                (metainfo.Length f) :: added).
      rewrite M, <- app_assoc. split; [done|].
      rewrite V', V. cbn [fmap list_fmap m_id]. rewrite V in Hdisj.
      set_solver.
Qed.

Lemma MMapSpan_Close_live mms w :
  live (MMapSpan_Close mms w) = live w ∖ regions mms.
Proof.
  unfold MMapSpan_Close, regions.
  revert w. induction mms as [|m mms IH]; intros w.
  - cbn. set_solver.
  - cbn [foldl]. rewrite IH. cbn. set_solver.
Qed.

(** *** The function *)

(** C8: when [mmapTorrentData] returns without error, every file of the
    metainfo, at the path that joins the location, the name of the
    torrent and the path elements of the file, was visited by a turn of
    the loop that made the directory of that path with every parent above
    it and the file itself (created if absent), grew the file to exactly
    its declared length if it was shorter, ahead of the mapping, and did
    not truncate a file already long enough; the directories and the file
    are still there when the function returns, the file no shorter. *)
Theorem mmapTorrentData_prepares_files metaInfo location w w' mms :
  mmapTorrentData filepath_Join filepath_Dir host metaInfo location w
    = Returned (w', mms, None) ->
  forall pre miFile post,
    metainfo.Files metaInfo = pre ++ miFile :: post ->
    let name := metainfo.Name metaInfo in
    let n := filepath_Join ([location; name] ++ metainfo.Path miFile) in
    exists w1 w2 mms1 m,
      visitAll location name pre [] w = Returned (w1, mms1, None)
      /\ visit location name miFile mms1 w1
           = Returned (w2, mms1 ++ [m], None)
      /\ prepared filepath_Join filepath_Dir location name miFile w1 w2 m
      /\ mms !! length pre = Some m
      /\ (forall d, d ∈ ancestors (filepath_Dir n) -> d ∈ dirs w')
      /\ n ∈ dom (files w')
      /\ fileSize w2 n <= fileSize w' n.
Proof.
  intros H pre miFile post Hsplit name n.
  change n with (fileName location name miFile) in *.
  clear n. set (n := fileName location name miFile).
  unfold mmapTorrentData in H. fold name in H.
  destruct (visitAll location name (metainfo.Files metaInfo) [] w)
    as [[[wf mmsf] [e|]]|msg] eqn:E; try discriminate.
  injection H as <- <-.
  rewrite Hsplit, visitAll_app in E.
  destruct (visitAll location name pre [] w)
    as [[[w1 mms1] [e|]]|msg] eqn:E1; try discriminate.
  cbn [torrent.visitAll] in E.
  destruct (visit location name miFile mms1 w1)
    as [[[w2 mms2] [e|]]|msg] eqn:E2; try discriminate.
  pose proof (visit_ok _ _ _ _ _ _ _ E2) as (D & F & V & M & G).
  cbn zeta in D, F, V, M, G. fold n in D, F, V, M, G.
  apply visitAll_mono in E1 as (_ & _ & _ & added1 & Hm1 & Hl1).
  apply visitAll_mono in E as (Dp & Fp & Sp & added & Hm & _).
  cbn [app] in Hm1. subst added1.
  set (m := mkMMap (fresh (live w1)) n (metainfo.Length miFile)) in *.
  exists w1, w2, mms1, m. split_and!.
  - done.
  - by rewrite <- M.
  - unfold prepared. fold (fileName location name miFile). fold n.
    cbn zeta. split_and!.
    + intros d Hd. rewrite D. set_solver.
    + rewrite F, lookup_insert_eq. f_equal.
      destruct (fileSize w1 n <? metainfo.Length miFile) eqn:Hsz.
      * apply Z.ltb_lt in Hsz. lia.
      * apply Z.ltb_ge in Hsz. lia.
    + exact G.
    + done.
    + done.
  - rewrite Hm, M, <- app_assoc, <- Hl1. apply list_lookup_middle. done.
  - intros d Hd. apply Dp. rewrite D. set_solver.
  - apply Fp. rewrite F, dom_insert_L. set_solver.
  - apply Sp.
Qed.

(** C10: when [mmapTorrentData] returns an error, the span it returns is
    nil, and every region the loop had mapped before the failure (all of
    them live at that point) has been unmapped by closing the span: none
    is live any more and the live regions are those from before the
    call. *)
Theorem mmapTorrentData_error_closes metaInfo location w w' mms e :
  mmapTorrentData filepath_Join filepath_Dir host metaInfo location w
    = Returned (w', mms, Some e) ->
  mms = []
  /\ exists wf created,
       visitAll location (metainfo.Name metaInfo)
                (metainfo.Files metaInfo) [] w
         = Returned (wf, created, Some e)
       /\ live wf = regions created ∪ live w
       /\ w' = MMapSpan_Close created wf
       /\ (forall m, m ∈ created -> m_id m ∉ live w')
       /\ live w' = live w.
Proof.
  intros H. unfold mmapTorrentData in H.
  destruct (visitAll location (metainfo.Name metaInfo)
              (metainfo.Files metaInfo) [] w)
    as [[[wf created] [e'|]]|msg] eqn:E; try discriminate.
  injection H as <- <- <-. split; [done|].
  exists wf, created.
  apply visitAll_live in E as (added & Hadd & V & Hdisj).
  cbn [app] in Hadd. subst added.
  split_and!; try done.
  - intros m Hm. rewrite MMapSpan_Close_live.
    assert (m_id m ∈ regions created)
      by (unfold regions; apply elem_of_list_to_set, list_elem_of_fmap; eauto).
    set_solver.
  - rewrite MMapSpan_Close_live, V. set_solver.
Qed.

End MmapFacts.

Section MmapSamples.

Import torrent.

Lemma mmapTorrentData_prepares_files_witness :
  exists w' mms,
    mmapTorrentData sampleJoin sampleDir calm sampleInfo "data" emptyWorld
      = Returned (w', mms, None)
    /\ exists w1 w2 mms1 m,
      visitAll sampleJoin sampleDir calm "data" "album" [sampleA] []
               emptyWorld = Returned (w1, mms1, None)
      /\ visit sampleJoin sampleDir calm "data" "album" sampleB mms1 w1
           = Returned (w2, mms1 ++ [m], None)
      /\ prepared sampleJoin sampleDir "data" "album" sampleB w1 w2 m
      /\ mms !! 1%nat = Some m
      /\ (forall d, d ∈ ["data/album/sub"; "data/album"; "data"] ->
                    d ∈ dirs w')
      /\ "data/album/sub/b.bin" ∈ dom (files w')
      /\ fileSize w2 "data/album/sub/b.bin"
         <= fileSize w' "data/album/sub/b.bin".
Proof.
  eexists _, _. split; [vm_compute; reflexivity|].
  apply (fun H => mmapTorrentData_prepares_files sampleJoin sampleDir calm
            sampleInfo "data" emptyWorld _ _ H [sampleA] sampleB [] eq_refl).
  vm_compute; reflexivity.
Defined.

Lemma mmapTorrentData_error_closes_witness :
  exists w',
    mmapTorrentData sampleJoin sampleDir (refusing 9 "no space left")
                    sampleInfo "data" emptyWorld
      = Returned (w', [], Some "no space left")
    /\ (([] : MMapSpan) = []
        /\ exists wf created,
             visitAll sampleJoin sampleDir (refusing 9 "no space left")
                      "data" "album" [sampleA; sampleB] [] emptyWorld
               = Returned (wf, created, Some "no space left")
             /\ live wf = regions created ∪ live emptyWorld
             /\ w' = MMapSpan_Close created wf
             /\ (forall m, m ∈ created -> m_id m ∉ live w')
             /\ live w' = live emptyWorld).
Proof.
  eexists. split; [vm_compute; reflexivity|].
  eapply (mmapTorrentData_error_closes sampleJoin sampleDir
            (refusing 9 "no space left") sampleInfo "data" emptyWorld).
  vm_compute; reflexivity.
Defined.

End MmapSamples.

(** * Properties of the tracker codec *)

Section CodecFacts.

Import tracker.

(** ** Bytes and integers *)

Lemma b2z_range b : 0 <= b2z b < 256.
Proof.
  unfold b2z. pose proof (Byte.to_N_bounded b). lia.
Qed.

Lemma b2z_z2b z : b2z (z2b z) = z mod 256.
Proof.
  unfold b2z, z2b.
  pose proof (Z.mod_pos_bound z 256 ltac:(lia)) as Hr.
  destruct (Byte.of_N (Z.to_N (z mod 256))) as [b|] eqn:E.
  - apply Byte.to_of_N in E. cbn [default from_option id]. rewrite E. lia.
  - apply Byte.of_N_None_iff in E. lia.
Qed.

Lemma length_put_be n x : length (put_be n x) = n.
Proof. induction n as [|n IH]; cbn; [done|by rewrite IH]. Qed.

Lemma fold_put_be n x acc :
  fold_left (fun acc b => acc * 256 + b2z b) (put_be n x) acc
  = acc * 256 ^ Z.of_nat n + x mod 256 ^ Z.of_nat n.
Proof.
  revert acc. induction n as [|n IH]; intros acc.
  - cbn. rewrite Z.mod_1_r. lia.
  - cbn [put_be fold_left]. rewrite IH, b2z_z2b.
    rewrite Z.shiftr_div_pow2 by lia.
    replace (2 ^ (8 * Z.of_nat n)) with (256 ^ Z.of_nat n)
      by (rewrite Z.pow_mul_r by lia; reflexivity).
    rewrite Nat2Z.inj_succ, Z.pow_succ_r by lia.
    assert (0 < 256 ^ Z.of_nat n) as Hp by (apply Z.pow_pos_nonneg; lia).
    rewrite (Z.mul_comm 256 (256 ^ Z.of_nat n)).
    rewrite (Z.rem_mul_r x (256 ^ Z.of_nat n) 256) by lia.
    lia.
Qed.

Lemma be_val_put_be n x : fits n x -> be_val (put_be n x) = x.
Proof.
  intros H. unfold be_val. rewrite fold_put_be.
  rewrite Z.mod_small by exact H. lia.
Qed.

Lemma to_signed_put_be n x :
  fits_signed n x -> to_signed n (be_val (put_be n x)) = x.
Proof.
  intros [Hlo Hhi]. unfold be_val, to_signed. rewrite fold_put_be.
  rewrite Z.mul_0_l, Z.add_0_l. set (M := 256 ^ Z.of_nat n) in *.
  assert (0 < M) as HM by (apply Z.pow_pos_nonneg; lia).
  destruct (Z.neg_nonneg_cases x) as [Hneg|Hpos].
  - assert (x mod M = x + M) as ->.
    { symmetry. apply (Z.mod_unique x M (-1)); lia. }
    destruct (Z.leb_spec M (2 * (x + M))); lia.
  - rewrite Z.mod_small by lia.
    destruct (Z.leb_spec M (2 * x)); lia.
Qed.

(** ** Field decoders *)

Lemma get_bytes_app n bs rest :
  length bs = n -> get_bytes n (bs ++ rest) = Ok (bs, rest).
Proof.
  intros <-. unfold get_bytes.
  destruct (Nat.ltb_spec (length (bs ++ rest)) (length bs)) as [Hlt|_].
  - rewrite length_app in Hlt. lia.
  - by rewrite take_app_length, drop_app_length.
Qed.

Lemma get_be_put n x rest :
  fits n x -> get_be n (put_be n x ++ rest) = Ok (x, rest).
Proof.
  intros H. unfold get_be, mbind, decoder_bind, bind.
  rewrite get_bytes_app by apply length_put_be.
  unfold ret. by rewrite be_val_put_be.
Qed.

Lemma get_sbe_put n x rest :
  fits_signed n x -> get_sbe n (put_be n x ++ rest) = Ok (x, rest).
Proof.
  intros H. unfold get_sbe, mbind, decoder_bind, bind.
  rewrite get_bytes_app by apply length_put_be.
  unfold ret. by rewrite to_signed_put_be.
Qed.

(** ** Fixed widths *)

Lemma reads_truncates {A} (d : decoder A) n : reads d n -> truncates d n.
Proof. by intros [H _]. Qed.

Lemma truncates_0 {A} (d : decoder A) : truncates d 0.
Proof. intros buf H. lia. Qed.

Lemma reads_ret {A} (a : A) : reads (ret a) 0.
Proof.
  split; [apply truncates_0|]. intros buf _. exists a. by rewrite drop_0.
Qed.

Lemma reads_get_bytes n : reads (get_bytes n) n.
Proof.
  split.
  - intros buf H. unfold get_bytes.
    by destruct (Nat.ltb_spec (length buf) n); [|lia].
  - intros buf H. unfold get_bytes.
    destruct (Nat.ltb_spec (length buf) n); [lia|]. eauto.
Qed.

Lemma truncates_bind {A B} (d : decoder A) (k : A -> decoder B) n m t :
  reads d n -> (forall a, truncates (k a) m) -> t = (n + m)%nat ->
  truncates (d ≫= k) t.
Proof.
  intros [Hshort Hlong] Hk -> buf Hbuf.
  unfold mbind, decoder_bind, bind.
  destruct (Nat.lt_ge_cases (length buf) n) as [Hlt|Hge].
  - by rewrite Hshort.
  - destruct (Hlong buf Hge) as [a ->]. apply Hk.
    rewrite length_drop. lia.
Qed.

Lemma reads_bind {A B} (d : decoder A) (k : A -> decoder B) n m t :
  reads d n -> (forall a, reads (k a) m) -> t = (n + m)%nat ->
  reads (d ≫= k) t.
Proof.
  intros Hd Hk ->. split.
  - eapply truncates_bind; [exact Hd| |reflexivity].
    intros a. apply Hk.
  - intros buf Hbuf. destruct Hd as [_ Hlong].
    unfold mbind, decoder_bind, bind.
    destruct (Hlong buf ltac:(lia)) as [a ->].
    destruct (Hk a) as [_ Hlong'].
    destruct (Hlong' (drop n buf)) as [b ->].
    { rewrite length_drop. lia. }
    exists b. by rewrite drop_drop.
Qed.

Lemma reads_get_be n : reads (get_be n) n.
Proof.
  eapply reads_bind;
    [apply reads_get_bytes|intros bs; apply reads_ret|lia].
Qed.

Lemma reads_get_sbe n : reads (get_sbe n) n.
Proof.
  eapply reads_bind;
    [apply reads_get_bytes|intros bs; apply reads_ret|lia].
Qed.

(** Fixed widths compose along the fields of a structure. *)
Ltac fixed_width :=
  repeat first
    [ apply reads_ret | apply reads_get_bytes | apply reads_get_be
    | apply reads_get_sbe | (eapply reads_bind; [ | intros ? | ]) ];
  try reflexivity.

Lemma reads_RequestHeader : reads decode_RequestHeader 16.
Proof. unfold decode_RequestHeader. fixed_width. Qed.

Lemma reads_ResponseHeader : reads decode_ResponseHeader 8.
Proof. unfold decode_ResponseHeader. fixed_width. Qed.

Lemma reads_ConnectionResponse : reads decode_ConnectionResponse 8.
Proof. unfold decode_ConnectionResponse. fixed_width. Qed.

Lemma reads_AnnounceRequest : reads decode_AnnounceRequest 82.
Proof. unfold decode_AnnounceRequest. fixed_width. Qed.

Lemma reads_AnnounceResponseHeader : reads decode_AnnounceResponseHeader 12.
Proof. unfold decode_AnnounceResponseHeader. fixed_width. Qed.

Lemma parse_truncates s : truncates (parse s) (width s).
Proof.
  destruct s; cbn [parse width].
  - apply reads_truncates, reads_ResponseHeader.
  - apply reads_truncates, reads_RequestHeader.
  - apply reads_truncates.
    eapply reads_bind; [apply reads_ResponseHeader| |reflexivity].
    intros h.
    eapply reads_bind; [apply reads_ConnectionResponse| |reflexivity].
    intros c. apply reads_ret.
  - apply reads_truncates.
    eapply reads_bind; [apply reads_RequestHeader| |reflexivity].
    intros h.
    eapply reads_bind; [apply reads_AnnounceRequest| |reflexivity].
    intros a. apply reads_ret.
  - apply reads_truncates.
    eapply reads_bind; [apply reads_ResponseHeader| |reflexivity].
    intros h.
    eapply reads_bind; [apply reads_AnnounceResponseHeader| |reflexivity].
    intros a. apply reads_ret.
  - eapply truncates_bind; [apply reads_ResponseHeader| |reflexivity].
    intros h.
    eapply truncates_bind;
      [apply reads_AnnounceResponseHeader| |reflexivity].
    intros a. apply truncates_0.
Qed.

(** C5: for every structure and every buffer shorter than its fixed
    width, [decode] fails with [Truncated]; it yields no value, so no field
    is filled with zeros. *)
Theorem decode_short_is_Truncated (s : structure) (buf : list byte) :
  (length buf < width s)%nat -> decode s buf = Err Truncated.
Proof.
  intros H. unfold decode. by rewrite (parse_truncates s buf H).
Qed.

Lemma decode_short_is_Truncated_witness :
  decode SResponseHeader [x00; x00; x00; x01] = Err Truncated
  /\ decode SResponseHeader [x00; x00; x01] = Err Truncated.
Proof.
  split.
  - apply (decode_short_is_Truncated SResponseHeader [x00; x00; x00; x01]).
    cbn. lia.
  - apply (decode_short_is_Truncated SResponseHeader [x00; x00; x01]).
    cbn. lia.
Defined.

(** ** Round trips *)

(** One field of a structure: rewrite with the field's round trip and
    reduce the [match] it feeds. *)
Ltac read_field :=
  first [ rewrite get_be_put by assumption
        | rewrite get_sbe_put by assumption
        | rewrite get_bytes_app by assumption ];
  cbv beta iota.

Ltac open_decoder := unfold mbind, decoder_bind, bind, mret, decoder_ret, ret.

Lemma decode_RequestHeader_encode h rest :
  wf_RequestHeader h ->
  decode_RequestHeader (encode_RequestHeader h ++ rest) = Ok (h, rest).
Proof.
  destruct h as [c a t]. intros (Hc & Ha & Ht). cbn in Hc, Ha, Ht.
  unfold decode_RequestHeader, encode_RequestHeader.
  cbn [rq_ConnectionId rq_Action rq_TransactionId].
  rewrite <- !app_assoc. open_decoder. by repeat read_field.
Qed.

Lemma decode_ResponseHeader_encode h rest :
  wf_ResponseHeader h ->
  decode_ResponseHeader (encode_ResponseHeader h ++ rest) = Ok (h, rest).
Proof.
  destruct h as [a t]. intros (Ha & Ht). cbn in Ha, Ht.
  unfold decode_ResponseHeader, encode_ResponseHeader.
  cbn [Action TransactionId].
  rewrite <- !app_assoc. open_decoder. by repeat read_field.
Qed.

Lemma decode_ConnectionResponse_encode c rest :
  wf_ConnectionResponse c ->
  decode_ConnectionResponse (encode_ConnectionResponse c ++ rest)
  = Ok (c, rest).
Proof.
  destruct c as [c]. intros Hc. unfold wf_ConnectionResponse in Hc.
  cbn in Hc.
  unfold decode_ConnectionResponse, encode_ConnectionResponse.
  cbn [ConnectionId]. open_decoder. by repeat read_field.
Qed.

Lemma decode_AnnounceRequest_encode a rest :
  wf_AnnounceRequest a ->
  decode_AnnounceRequest (encode_AnnounceRequest a ++ rest) = Ok (a, rest).
Proof.
  destruct a as [ih pid dl lf ul ev ip key nw port].
  intros (Hih & Hpid & Hdl & Hlf & Hul & Hev & Hip & Hkey & Hnw & Hport).
  cbn in Hih, Hpid, Hdl, Hlf, Hul, Hev, Hip, Hkey, Hnw, Hport.
  unfold decode_AnnounceRequest, encode_AnnounceRequest.
  cbn [InfoHash PeerId Downloaded Left Uploaded Event IPAddress Key
       NumWant Port].
  rewrite <- !app_assoc. open_decoder. by repeat read_field.
Qed.

Lemma decode_AnnounceResponseHeader_encode h rest :
  wf_AnnounceResponseHeader h ->
  decode_AnnounceResponseHeader (encode_AnnounceResponseHeader h ++ rest)
  = Ok (h, rest).
Proof.
  destruct h as [i l sd]. intros (Hi & Hl & Hs). cbn in Hi, Hl, Hs.
  unfold decode_AnnounceResponseHeader, encode_AnnounceResponseHeader.
  cbn [Interval Leechers Seeders].
  rewrite <- !app_assoc. open_decoder. by repeat read_field.
Qed.

Lemma length_encode_CompactPeer p : length (encode_CompactPeer p) = 6%nat.
Proof. by destruct p as [[[[a b] c] d] port]. Qed.

Lemma decode_CompactPeers_encode ps :
  Forall wf_CompactPeer ps ->
  decode_CompactPeers (encode_CompactPeers ps) = Ok ps.
Proof.
  induction 1 as [|p ps Hp _ IH]; [done|].
  destruct p as [[[[a b] c] d] port]. unfold wf_CompactPeer in Hp.
  cbn [PeerPort] in Hp.
  unfold encode_CompactPeers in *. cbn [flat_map].
  unfold encode_CompactPeer at 1. cbn [IP PeerPort put_be app].
  cbn [decode_CompactPeers]. rewrite IH.
  change [z2b (Z.shiftr port (8 * Z.of_nat 1));
          z2b (Z.shiftr port (8 * Z.of_nat 0))] with (put_be 2 port).
  by rewrite be_val_put_be.
Qed.

Lemma parse_encode s (x : value s) :
  wf s x -> parse s (encode s x) = Ok (x, []).
Proof.
  destruct s; cbn [value parse encode wf] in *.
  - intros H. rewrite <- (app_nil_r (encode_ResponseHeader x)).
    by apply decode_ResponseHeader_encode.
  - intros H. rewrite <- (app_nil_r (encode_RequestHeader x)).
    by apply decode_RequestHeader_encode.
  - destruct x as [h c]. intros [Hh Hc]. open_decoder.
    rewrite decode_ResponseHeader_encode by done.
    rewrite <- (app_nil_r (encode_ConnectionResponse c)).
    by rewrite decode_ConnectionResponse_encode.
  - destruct x as [h a]. intros [Hh Ha]. open_decoder.
    rewrite decode_RequestHeader_encode by done.
    rewrite <- (app_nil_r (encode_AnnounceRequest a)).
    by rewrite decode_AnnounceRequest_encode.
  - destruct x as [h a]. intros [Hh Ha]. open_decoder.
    rewrite decode_ResponseHeader_encode by done.
    rewrite <- (app_nil_r (encode_AnnounceResponseHeader a)).
    by rewrite decode_AnnounceResponseHeader_encode.
  - destruct x as [[h a] ps]. intros (Hh & Ha & Hps). open_decoder.
    rewrite decode_ResponseHeader_encode by done.
    rewrite decode_AnnounceResponseHeader_encode by done.
    unfold get_peers. by rewrite decode_CompactPeers_encode.
Qed.

(** C7: for every defined structure (connect request, connect response,
    announce request, announce-response header, and announce response
    with any number of compact peers) and every value of it whose fields
    fit their widths, decoding the encoding gives the value back, all
    bytes consumed. *)
Theorem decode_encode (s : structure) (x : value s) :
  wf s x -> decode s (encode s x) = Ok (x, length (encode s x)).
Proof.
  intros H. unfold decode. rewrite (parse_encode s x H).
  cbn [length]. by rewrite Nat.sub_0_r.
Qed.

Ltac fits_all :=
  repeat first [split | constructor]; vm_compute; congruence.

Lemma decode_encode_witness :
  decode SConnectRequest (encode SConnectRequest sampleConnect)
    = Ok (sampleConnect, length (encode SConnectRequest sampleConnect))
  /\ decode SAnnounceRequest
        (encode SAnnounceRequest (sampleConnect, sampleAnnounce))
      = Ok ((sampleConnect, sampleAnnounce),
            length (encode SAnnounceRequest (sampleConnect, sampleAnnounce)))
  /\ decode SAnnounceResponse
        (encode SAnnounceResponse (sampleResponse, sampleCounts, []))
      = Ok ((sampleResponse, sampleCounts, []),
            length (encode SAnnounceResponse
                      (sampleResponse, sampleCounts, [])))
  /\ decode SAnnounceResponse
        (encode SAnnounceResponse (sampleResponse, sampleCounts, [peerA]))
      = Ok ((sampleResponse, sampleCounts, [peerA]),
            length (encode SAnnounceResponse
                      (sampleResponse, sampleCounts, [peerA])))
  /\ decode SAnnounceResponse
        (encode SAnnounceResponse
           (sampleResponse, sampleCounts, [peerA; peerB]))
      = Ok ((sampleResponse, sampleCounts, [peerA; peerB]),
            length (encode SAnnounceResponse
                      (sampleResponse, sampleCounts, [peerA; peerB]))).
Proof.
  split; [|split; [|split; [|split]]].
  - apply (decode_encode SConnectRequest sampleConnect). fits_all.
  - apply (decode_encode SAnnounceRequest (sampleConnect, sampleAnnounce)).
    fits_all.
  - apply (decode_encode SAnnounceResponse
             (sampleResponse, sampleCounts, [])). fits_all.
  - apply (decode_encode SAnnounceResponse
             (sampleResponse, sampleCounts, [peerA])). fits_all.
  - apply (decode_encode SAnnounceResponse
             (sampleResponse, sampleCounts, [peerA; peerB])). fits_all.
Defined.

(** ** Compact peers *)

(** C6: a compact peer encodes to exactly 6 bytes, address first and the
    port after it, both big-endian; the peers 127.0.0.1:2 and 255.0.0.3:4
    encode to 7f 00 00 01 00 02 ff 00 00 03 00 04, and an announce
    response (action 1, transaction id [T], interval 1800, 2 leechers, 5
    seeders) that carries those bytes decodes to those two peers in that
    order. *)
Theorem compact_peers_wire (T : Z) :
  fits 4 T ->
  (forall p, length (encode_CompactPeer p) = 6%nat)
  /\ (forall a b c d port,
        encode_CompactPeer (mkCompactPeer (a, b, c, d) port)
        = [a; b; c; d] ++ put_be 2 port)
  /\ encode_CompactPeers [peerA; peerB] = peerBytes
  /\ decode SAnnounceResponse
        (encode_ResponseHeader (mkResponseHeader ActionAnnounce T)
         ++ encode_AnnounceResponseHeader sampleCounts ++ peerBytes)
      = Ok ((mkResponseHeader ActionAnnounce T, sampleCounts,
             [peerA; peerB]), 32%nat).
Proof.
  intros HT.
  assert (encode_CompactPeers [peerA; peerB] = peerBytes) as Hbytes
    by reflexivity.
  split; [apply length_encode_CompactPeer|].
  split; [done|]. split; [exact Hbytes|].
  rewrite <- Hbytes.
  change (encode_ResponseHeader (mkResponseHeader ActionAnnounce T)
          ++ encode_AnnounceResponseHeader sampleCounts
          ++ encode_CompactPeers [peerA; peerB])
    with (encode SAnnounceResponse
            (mkResponseHeader ActionAnnounce T, sampleCounts,
             [peerA; peerB])).
  unfold decode. rewrite parse_encode.
  - reflexivity.
  - cbn [wf]. split; [|fits_all].
    split; [vm_compute; split; congruence|exact HT].
Qed.

Lemma compact_peers_wire_witness :
  (forall p, length (encode_CompactPeer p) = 6%nat)
  /\ (forall a b c d port,
        encode_CompactPeer (mkCompactPeer (a, b, c, d) port)
        = [a; b; c; d] ++ put_be 2 port)
  /\ encode_CompactPeers [peerA; peerB] = peerBytes
  /\ decode SAnnounceResponse
        (encode_ResponseHeader (mkResponseHeader ActionAnnounce 7)
         ++ encode_AnnounceResponseHeader sampleCounts ++ peerBytes)
      = Ok ((mkResponseHeader ActionAnnounce 7, sampleCounts,
             [peerA; peerB]), 32%nat).
Proof. apply (compact_peers_wire 7). fits_all. Defined.

End CodecFacts.

(** * Further properties of package [torrent] *)

Section SliceFacts.

Import torrent.

(** ** The terminal chunk, continued *)

(** X1: the terminal chunk is a full chunk exactly when the piece length is a
    multiple of the chunk size, and the remainder otherwise; the chunks
    before it are all full, so the piece has [ceil (L / chunkSize)]
    chunks. *)
Theorem lastChunkSpec_Length_mod (bits L : Z) :
  14 < bits -> 0 < L < 2 ^ bits ->
  Length (lastChunkSpec bits L)
    = (if L mod chunkSize =? 0 then chunkSize else L mod chunkSize)
  /\ Begin (lastChunkSpec bits L) / chunkSize + 1
    = (L + chunkSize - 1) / chunkSize.
Proof.
  intros Hb HL.
  rewrite (lastChunkSpec_Begin bits L Hb HL),
    (lastChunkSpec_Length bits L Hb HL).
  assert (0 < chunkSize) as Hc by reflexivity.
  pose proof (Z.div_mod (L - 1) chunkSize ltac:(lia)) as Hdm.
  pose proof (Z.mod_pos_bound (L - 1) chunkSize Hc) as Hr.
  set (q := (L - 1) / chunkSize) in *.
  set (r := (L - 1) mod chunkSize) in *.
  split.
  - destruct (Z.eq_dec r (chunkSize - 1)) as [Hfull|Hpart].
    + assert (L mod chunkSize = 0) as ->.
      { symmetry. apply (Z.mod_unique L chunkSize (q + 1)); lia. }
      cbn [Z.eqb]. lia.
    + assert (L mod chunkSize = r + 1) as ->.
      { symmetry. apply (Z.mod_unique L chunkSize q); lia. }
      destruct (Z.eqb_spec (r + 1) 0); lia.
  - rewrite Z.div_mul by lia.
    apply (Z.div_unique (L + chunkSize - 1) chunkSize (q + 1) r); lia.
Qed.

Lemma lastChunkSpec_Length_mod_witness :
  Length (lastChunkSpec 32 49152)
    = (if 49152 mod chunkSize =? 0 then chunkSize else 49152 mod chunkSize)
  /\ Begin (lastChunkSpec 32 49152) / chunkSize + 1
    = (49152 + chunkSize - 1) / chunkSize.
Proof. apply (lastChunkSpec_Length_mod 32 49152); lia. Defined.

(** X2: for a piece length of zero the subtraction [pieceLength - 1] wraps
    around: the chunk returned begins one chunk below the top of the
    integer range and is a full chunk long, not an empty chunk at 0. *)
Theorem lastChunkSpec_zero (bits : Z) :
  14 < bits ->
  lastChunkSpec bits 0 = mkChunkSpec (2 ^ bits - chunkSize) chunkSize.
Proof.
  intros Hb. unfold lastChunkSpec, wrap.
  assert (2 ^ bits = chunkSize * 2 ^ (bits - 14)) as HM.
  { change chunkSize with (2 ^ 14). rewrite <- Z.pow_add_r by lia.
    f_equal. lia. }
  assert (2 ^ 1 <= 2 ^ (bits - 14)) as HK
    by (apply Z.pow_le_mono_r; lia).
  unfold chunkSize in *.
  set (M := 2 ^ bits) in *. set (K := 2 ^ (bits - 14)) in *.
  assert ((0 - 1) mod M = M - 1) as ->.
  { symmetry. apply (Z.mod_unique (0 - 1) M (-1)); lia. }
  assert ((M - 1) / 0x4000 = K - 1) as ->.
  { symmetry. apply (Z.div_unique (M - 1) 0x4000 (K - 1) (0x4000 - 1)); lia. }
  rewrite (Z.mod_small (K - 1) M) by lia.
  assert ((K - 1) * 0x4000 = M - 0x4000) as -> by lia.
  rewrite (Z.mod_small (M - 0x4000) M) by lia.
  f_equal.
  symmetry. apply (Z.mod_unique (0 - (M - 0x4000)) M (-1)); lia.
Qed.

Lemma lastChunkSpec_zero_witness :
  lastChunkSpec 32 0 = mkChunkSpec (2 ^ 32 - chunkSize) chunkSize.
Proof. apply (lastChunkSpec_zero 32). lia. Defined.

(** ** The comparator as a [sort.Interface] *)

Lemma index_Some {A} (l : list A) i x :
  index l i = Some x <-> 0 <= i /\ l !! Z.to_nat i = Some x.
Proof.
  unfold index. destruct (Z.ltb_spec i 0); split.
  - discriminate.
  - intros [? _]. lia.
  - done.
  - by intros [_ ?].
Qed.

Lemma index_is_Some {A} (l : list A) i :
  is_Some (index l i) <-> 0 <= i < Z.of_nat (length l).
Proof.
  unfold index. destruct (Z.ltb_spec i 0).
  - split; [by intros [? ?]|lia].
  - rewrite lookup_lt_is_Some. lia.
Qed.

Lemma Less_pendingAt me i j :
  Less me i j = pa ← pendingAt me i; pb ← pendingAt me j; Some (pa <? pb).
Proof.
  unfold Less, pendingAt.
  destruct (index (Indices me) i) as [a|]; [|done]. cbn.
  destruct (index (Pending me) a) as [pa|]; [|done]. cbn.
  by destruct (index (Indices me) j) as [b|].
Qed.

(** X3: [Less] returns, rather than panicking on an index out of range,
    exactly when both positions lie in the slice and the piece indices
    kept there lie within [Pending]. *)
Theorem Less_defined_iff me i j :
  is_Some (Less me i j) <->
  exists a b,
    index (Indices me) i = Some a /\ index (Indices me) j = Some b
    /\ (0 <= i < Len me /\ 0 <= j < Len me)
    /\ 0 <= a < Z.of_nat (length (Pending me))
    /\ 0 <= b < Z.of_nat (length (Pending me)).
Proof.
  unfold Less, Len. split.
  - intros [r Hr].
    destruct (index (Indices me) i) as [a|] eqn:Hi; [|discriminate].
    cbn in Hr.
    destruct (index (Pending me) a) as [pa|] eqn:Ha; [|discriminate].
    cbn in Hr.
    destruct (index (Indices me) j) as [b|] eqn:Hj; [|discriminate].
    cbn in Hr.
    destruct (index (Pending me) b) as [pb|] eqn:Hb; [|discriminate].
    assert (is_Some (index (Indices me) i)) as Hir%index_is_Some
      by (by rewrite Hi).
    assert (is_Some (index (Indices me) j)) as Hjr%index_is_Some
      by (by rewrite Hj).
    assert (is_Some (index (Pending me) a)) as Har%index_is_Some
      by (by rewrite Ha).
    assert (is_Some (index (Pending me) b)) as Hbr%index_is_Some
      by (by rewrite Hb).
    exists a, b. done.
  - intros (a & b & Hi & Hj & _ & Ha & Hb).
    apply index_is_Some in Ha as [pa Ha]. apply index_is_Some in Hb as [pb Hb].
    rewrite Hi. cbn. rewrite Ha. cbn. rewrite Hj. cbn. rewrite Hb. by cbn.
Qed.

(** X4: on positions where it is defined, [Less] is a strict weak order: it
    is irreflexive, asymmetric and transitive, and being unordered by it
    is transitive too. *)
Theorem Less_strict_weak_order me i j k pi pj pk :
  pendingAt me i = Some pi -> pendingAt me j = Some pj ->
  pendingAt me k = Some pk ->
  Less me i i = Some false
  /\ (Less me i j = Some true -> Less me j i = Some false)
  /\ (Less me i j = Some true -> Less me j k = Some true ->
      Less me i k = Some true)
  /\ (Less me i j = Some false -> Less me j i = Some false ->
      Less me j k = Some false -> Less me k j = Some false ->
      Less me i k = Some false /\ Less me k i = Some false).
Proof.
  intros Hi Hj Hk. rewrite !Less_pendingAt, Hi, Hj, Hk. cbn.
  split_and!.
  - by rewrite Z.ltb_irrefl.
  - intros [= H%Z.ltb_lt]. f_equal. apply Z.ltb_ge. lia.
  - intros [= H1%Z.ltb_lt] [= H2%Z.ltb_lt]. f_equal. apply Z.ltb_lt. lia.
  - intros [= H1%Z.ltb_ge] [= H2%Z.ltb_ge] [= H3%Z.ltb_ge] [= H4%Z.ltb_ge].
    split; f_equal; apply Z.ltb_ge; lia.
Qed.

Lemma Less_strict_weak_order_witness :
  let me := {| Pending := [7; 5; 5]; Indices := [2; 0; 1] |} in
  Less me 0 0 = Some false
  /\ (Less me 0 1 = Some true -> Less me 1 0 = Some false)
  /\ (Less me 0 1 = Some true -> Less me 1 2 = Some true ->
      Less me 0 2 = Some true)
  /\ (Less me 0 1 = Some false -> Less me 1 0 = Some false ->
      Less me 1 2 = Some false -> Less me 2 1 = Some false ->
      Less me 0 2 = Some false /\ Less me 2 0 = Some false).
Proof.
  apply (Less_strict_weak_order
           {| Pending := [7; 5; 5]; Indices := [2; 0; 1] |} 0 1 2 5 7 5);
    reflexivity.
Defined.

(** What [Swap] does to the positions of the slice. *)
Lemma Swap_index me i j me' :
  Swap me i j = Some me' ->
  Pending me' = Pending me
  /\ (0 <= i < Len me /\ 0 <= j < Len me)
  /\ Indices me' ≡ₚ Indices me
  /\ forall k, index (Indices me') k = index (Indices me) (exchanged i j k).
Proof.
  unfold Swap, Len. intros H.
  destruct (index (Indices me) i) as [a|] eqn:Hi; [|discriminate].
  cbn in H.
  destruct (index (Indices me) j) as [b|] eqn:Hj; [|discriminate].
  injection H as <-. cbn [Pending Indices].
  assert (0 <= i < Z.of_nat (length (Indices me))) as Hir
    by (apply index_is_Some; by rewrite Hi).
  assert (0 <= j < Z.of_nat (length (Indices me))) as Hjr
    by (apply index_is_Some; by rewrite Hj).
  apply index_Some in Hi as [_ Hi]. apply index_Some in Hj as [_ Hj].
  split; [done|]. split; [done|]. split.
  - by apply Permutation_insert_swap.
  - intros k. unfold exchanged, index.
    destruct (Z.eqb_spec k i) as [->|Hki].
    { destruct (Z.ltb_spec i 0), (Z.ltb_spec j 0); try lia.
      rewrite Hj. destruct (decide (Z.to_nat j = Z.to_nat i)) as [E|E].
      - rewrite E, list_lookup_insert_eq by (rewrite length_insert; lia).
        congruence.
      - rewrite list_lookup_insert_ne by done.
        apply list_lookup_insert_eq. lia. }
    destruct (Z.eqb_spec k j) as [->|Hkj].
    { destruct (Z.ltb_spec i 0), (Z.ltb_spec j 0); try lia.
      rewrite Hi. apply list_lookup_insert_eq. rewrite length_insert. lia. }
    destruct (Z.ltb_spec k 0); [done|].
    rewrite !list_lookup_insert_ne by lia. done.
Qed.

Lemma Swap_in_range me i j :
  0 <= i < Len me -> 0 <= j < Len me -> is_Some (Swap me i j).
Proof.
  intros Hi Hj. unfold Swap, Len in *.
  apply index_is_Some in Hi as [a Ha]. apply index_is_Some in Hj as [b Hb].
  rewrite Ha. cbn. rewrite Hb. by cbn.
Qed.

(** X5: [Swap] on two positions of the slice exchanges the piece indices kept
    there and nothing else: [Pending] and the length are as before, the
    indices are a permutation of the old ones, and every other position
    keeps its element. *)
Theorem Swap_exchanges me i j :
  0 <= i < Len me -> 0 <= j < Len me ->
  exists me',
    Swap me i j = Some me'
    /\ Pending me' = Pending me /\ Len me' = Len me
    /\ Indices me' ≡ₚ Indices me
    /\ index (Indices me') i = index (Indices me) j
    /\ index (Indices me') j = index (Indices me) i
    /\ forall k, k <> i -> k <> j ->
         index (Indices me') k = index (Indices me) k.
Proof.
  intros Hi Hj.
  destruct (Swap_in_range me i j Hi Hj) as [me' E].
  exists me'. pose proof (Swap_index _ _ _ _ E) as (HP & _ & Hperm & Hk).
  split_and!; try done.
  - unfold Len. by rewrite Hperm.
  - rewrite Hk. unfold exchanged. by rewrite Z.eqb_refl.
  - rewrite Hk. unfold exchanged. rewrite Z.eqb_refl.
    by destruct (Z.eqb_spec j i) as [->|].
  - intros k Hki Hkj. rewrite Hk. unfold exchanged.
    by destruct (Z.eqb_spec k i), (Z.eqb_spec k j).
Qed.

Lemma Swap_exchanges_witness :
  let me := {| Pending := [7; 5; 5]; Indices := [2; 0; 1] |} in
  exists me',
    Swap me 0 2 = Some me'
    /\ Pending me' = Pending me /\ Len me' = Len me
    /\ Indices me' ≡ₚ Indices me
    /\ index (Indices me') 0 = index (Indices me) 2
    /\ index (Indices me') 2 = index (Indices me) 0
    /\ forall k, k <> 0 -> k <> 2 ->
         index (Indices me') k = index (Indices me) k.
Proof.
  apply (Swap_exchanges {| Pending := [7; 5; 5]; Indices := [2; 0; 1] |} 0 2);
    vm_compute; split; congruence.
Defined.

(** X6: [Swap] panics on an index out of range exactly when one of the two
    positions lies outside the slice. *)
Theorem Swap_defined_iff me i j :
  is_Some (Swap me i j) <-> 0 <= i < Len me /\ 0 <= j < Len me.
Proof.
  split.
  - intros [me' H]. by apply Swap_index in H as (_ & ? & _).
  - intros [Hi Hj]. by apply Swap_in_range.
Qed.

(** X7: exchanging the same two positions twice gives the slice back. *)
Theorem Swap_involutive me i j me' :
  Swap me i j = Some me' -> Swap me' i j = Some me.
Proof.
  intros H. pose proof (Swap_index _ _ _ _ H) as (HP & [Hi Hj] & Hperm & Hk).
  assert (is_Some (Swap me' i j)) as [me2 H2].
  { apply Swap_in_range; unfold Len in *; by rewrite Hperm. }
  rewrite H2. f_equal.
  apply Swap_index in H2 as (HP2 & _ & _ & Hk2).
  destruct me as [P I], me2 as [P2 I2]. cbn in *. f_equal; [congruence|].
  apply list_eq. intros n.
  specialize (Hk2 (Z.of_nat n)). rewrite Hk in Hk2.
  assert (exchanged i j (exchanged i j (Z.of_nat n)) = Z.of_nat n) as Hn.
  { unfold exchanged.
    destruct (Z.eqb_spec (Z.of_nat n) i), (Z.eqb_spec (Z.of_nat n) j);
      cbv beta iota;
      repeat (match goal with |- context [?x =? ?y] =>
                destruct (Z.eqb_spec x y) end; cbv beta iota);
      lia. }
  rewrite Hn in Hk2. unfold index in Hk2.
  destruct (Z.ltb_spec (Z.of_nat n) 0); [lia|].
  by rewrite Nat2Z.id in Hk2.
Qed.

Lemma Swap_involutive_witness :
  Swap {| Pending := [7; 5; 5]; Indices := [0; 2; 1] |} 0 1
  = Some {| Pending := [7; 5; 5]; Indices := [2; 0; 1] |}.
Proof.
  apply (Swap_involutive {| Pending := [7; 5; 5]; Indices := [2; 0; 1] |} 0 1).
  reflexivity.
Defined.

(** X8: after [Swap i j] the comparator sees the two positions exchanged:
    comparing any two positions of the new slice is comparing, in the old
    slice, the positions their elements came from. *)
Theorem Less_after_Swap me i j me' k l :
  Swap me i j = Some me' ->
  Less me' k l = Less me (exchanged i j k) (exchanged i j l).
Proof.
  intros H. apply Swap_index in H as (HP & _ & _ & Hk).
  unfold Less. by rewrite !Hk, HP.
Qed.

Lemma Less_after_Swap_witness :
  Less {| Pending := [7; 5; 5]; Indices := [0; 2; 1] |} 0 1
  = Less {| Pending := [7; 5; 5]; Indices := [2; 0; 1] |}
      (exchanged 0 1 0) (exchanged 0 1 1).
Proof.
  apply (Less_after_Swap {| Pending := [7; 5; 5]; Indices := [2; 0; 1] |}
           0 1 _ 0 1).
  reflexivity.
Defined.

End SliceFacts.

(** * Further properties of [mmapTorrentData] *)

Section MmapMore.

Import torrent.

Variable filepath_Join : list string -> string.
Variable filepath_Dir : string -> string.
Variable host : nat -> reply.

Abbreviation visit := (visit filepath_Join filepath_Dir host).
Abbreviation visitAll := (visitAll filepath_Join filepath_Dir host).
Abbreviation fileName := (fileName filepath_Join).
Abbreviation fileNames := (fileNames filepath_Join).
Abbreviation parentDirs := (parentDirs filepath_Join filepath_Dir).
Abbreviation settled := (settled filepath_Join filepath_Dir).
Abbreviation mmapTorrentData :=
  (mmapTorrentData filepath_Join filepath_Dir host).

(** ** Directories and files only grow *)

Lemma extends_refl N D w : extends N D w w.
Proof. unfold extends. split_and!; try done; set_solver. Qed.

Lemma extends_trans N D w1 w2 w3 :
  extends N D w1 w2 -> extends N D w2 w3 -> extends N D w1 w3.
Proof.
  intros (A1 & B1 & C1 & S1 & K1) (A2 & B2 & C2 & S2 & K2).
  unfold extends. split_and!.
  - set_solver.
  - set_solver.
  - set_solver.
  - intros x. etrans; [apply S1|apply S2].
  - intros x Hx. by rewrite K2, K1.
Qed.

Lemma extends_weaken N D N' D' w w' :
  N ⊆ N' -> D ⊆ D' -> extends N D w w' -> extends N' D' w w'.
Proof.
  intros HN HD (A & B & C & S & K). unfold extends. split_and!; try done.
  - set_solver.
  - intros x Hx. apply K. set_solver.
Qed.

Lemma extends_same N D w w' :
  dirs w' = dirs w -> files w' = files w -> extends N D w w'.
Proof.
  intros Hd Hf. unfold extends, fileSize. rewrite Hd, Hf.
  split_and!; try done. set_solver.
Qed.

Lemma extends_insert N D n v w w' :
  n ∈ N -> dirs w' = dirs w -> files w' = <[n := v]> (files w) ->
  fileSize w n <= v -> extends N D w w'.
Proof.
  intros Hn Hd Hf Hv. unfold extends. rewrite Hd. split_and!.
  - done.
  - set_solver.
  - rewrite Hf, dom_insert_L. set_solver.
  - intros x. by eapply fileSize_insert.
  - intros x Hx. rewrite Hf, lookup_insert_ne; [done|]. set_solver.
Qed.

Lemma extends_mkdir N D (made : gset string) w w' :
  made ⊆ D -> dirs w' = made ∪ dirs w -> files w' = files w ->
  extends N D w w'.
Proof.
  intros Hd Hdirs Hf. unfold extends, fileSize. rewrite Hdirs, Hf.
  split_and!; try done; set_solver.
Qed.

(** The length of the region [gommap.MapRegion] hands back. *)
Lemma gommap_MapRegion_len file len w w1 m :
  gommap_MapRegion host file len w = (w1, inl m) ->
  m_len m = len
  \/ exists n, host (length (log w)) = Deviate n /\ m_len m = n /\ n <> len.
Proof.
  unfold gommap_MapRegion. intros H.
  destruct (host (length (log w))) as [|e|n] eqn:E; simplify_eq/=.
  - by left.
  - destruct (decide (n = len)) as [->|Hne]; [by left|].
    right. by exists n.
Qed.

(** The closure run on an opened file, whatever way it returns. *)
Lemma mapFile_extends N D f n mms w w' mms' err :
  n ∈ N ->
  mapFile host f n mms w = Returned (w', mms', err) ->
  extends N D w w'.
Proof.
  intros Hn H. unfold mapFile in H.
  set (L := metainfo.Length f) in *.
  destruct (file_Stat host n w) as [w3 r3] eqn:E3.
  apply file_Stat_inv in E3 as (D3 & F3 & V3 & G3 & S3).
  assert (extends N D w w3) as X3 by (by apply extends_same).
  destruct r3 as [size|e3].
  2:{ injection H as <- <- <-. eapply extends_trans; [exact X3|].
      by apply extends_same. }
  destruct (if size <? L then file_Truncate host n L w3 else (w3, None))
    as [w4 e4] eqn:E4.
  assert (extends N D w3 w4) as X4.
  { destruct (Z.ltb_spec size L).
    - apply file_Truncate_inv in E4 as (D4 & V4 & G4 & F4).
      destruct e4; [by apply extends_same|].
      apply (extends_insert N D n L w3 w4); [done|done|done|].
      cbv beta iota in S3. unfold fileSize, File in *.
      rewrite F3, S3. cbn. lia.
    - injection E4 as <- <-. apply extends_refl. }
  assert (forall w5 w6, dirs w5 = dirs w4 -> files w5 = files w4 ->
            w6 = file_Close n w5 -> extends N D w w6) as Hexit.
  { intros w5 w6 D5 F5 ->.
    eapply extends_trans; [exact X3|]. eapply extends_trans; [exact X4|].
    by apply extends_same. }
  destruct e4 as [e4|]; [injection H as <- <- <-; by eapply Hexit|].
  destruct (gommap_MapRegion host n L w4) as [w5 r5] eqn:E5.
  apply gommap_MapRegion_inv in E5 as (D5 & F5 & G5 & M5).
  destruct r5 as [m|e5]; [|injection H as <- <- <-; by eapply Hexit].
  destruct (negb (m_len m =? L)); [discriminate|].
  injection H as <- <- <-. by eapply Hexit.
Qed.

Lemma visit_extends N D loc nm f mms w w' mms' err :
  fileName loc nm f ∈ N ->
  list_to_set (ancestors (filepath_Dir (fileName loc nm f))) ⊆ D ->
  visit loc nm f mms w = Returned (w', mms', err) ->
  extends N D w w'.
Proof.
  intros Hn Hd H. unfold torrent.visit in H.
  set (n := fileName loc nm f) in *.
  destruct (os_MkdirAll host (filepath_Dir n) w) as [w1 e1] eqn:E1.
  apply os_MkdirAll_inv in E1 as (F1 & V1 & G1 & D1).
  destruct e1 as [e1|]; [injection H as <- <- <-; by apply extends_same|].
  assert (extends N D w w1) as X1 by (by eapply extends_mkdir).
  destruct (os_OpenFile host n w1) as [w2 r2] eqn:E2.
  apply os_OpenFile_inv in E2 as (D2 & V2 & G2 & F2).
  destruct r2 as [file|e2].
  2:{ injection H as <- <- <-. eapply extends_trans; [exact X1|].
      by apply extends_same. }
  destruct F2 as [-> F2].
  eapply extends_trans; [exact X1|]. eapply extends_trans.
  - eapply (extends_insert N D n); try done.
  - by eapply mapFile_extends.
Qed.

Lemma parentDirs_cons loc nm f fs :
  parentDirs loc nm (f :: fs)
  = list_to_set (ancestors (filepath_Dir (fileName loc nm f)))
    ∪ parentDirs loc nm fs.
Proof.
  unfold torrent.parentDirs. cbn [mbind list_bind].
  apply list_to_set_app_L.
Qed.

Lemma visitAll_extends loc nm fs mms w w' mms' err :
  visitAll loc nm fs mms w = Returned (w', mms', err) ->
  extends (fileNames loc nm fs) (parentDirs loc nm fs) w w'.
Proof.
  revert mms w. induction fs as [|f fs IH]; intros mms w H.
  - injection H as <- <- <-. apply extends_refl.
  - cbn [torrent.visitAll] in H.
    assert (fileName loc nm f ∈ fileNames loc nm (f :: fs))
      by (unfold torrent.fileNames; set_solver).
    assert (list_to_set (ancestors (filepath_Dir (fileName loc nm f)))
            ⊆ parentDirs loc nm (f :: fs))
      by (rewrite parentDirs_cons; set_solver).
    destruct (visit loc nm f mms w) as [[[w1 mms1] [e|]]|msg] eqn:E;
      [| |discriminate].
    + injection H as <- <- <-. by eapply visit_extends.
    + eapply extends_trans; [by eapply visit_extends|].
      eapply extends_weaken; [| |by eapply IH].
      * unfold torrent.fileNames. set_solver.
      * rewrite parentDirs_cons. set_solver.
Qed.

Lemma MMapSpan_Close_frame mms w :
  dirs (MMapSpan_Close mms w) = dirs w
  /\ files (MMapSpan_Close mms w) = files w.
Proof.
  unfold MMapSpan_Close. revert w.
  induction mms as [|m mms IH]; intros w; [done|].
  cbn [foldl]. destruct (IH (MMap_UnsafeUnmap m w)) as [-> ->]. done.
Qed.

Lemma mmapTorrentData_extends metaInfo location w w' mms err :
  mmapTorrentData metaInfo location w = Returned (w', mms, err) ->
  extends (fileNames location (metainfo.Name metaInfo)
             (metainfo.Files metaInfo))
          (parentDirs location (metainfo.Name metaInfo)
             (metainfo.Files metaInfo)) w w'.
Proof.
  intros H. unfold torrent.mmapTorrentData in H.
  destruct (visitAll location (metainfo.Name metaInfo)
              (metainfo.Files metaInfo) [] w)
    as [[[wf created] [e|]]|msg] eqn:E; try discriminate.
  - injection H as <- <- <-. apply visitAll_extends in E.
    eapply extends_trans; [exact E|].
    destruct (MMapSpan_Close_frame created wf). by apply extends_same.
  - injection H as <- <- <-. by apply visitAll_extends in E.
Qed.

(** X9: however [mmapTorrentData] returns, with or without error, it has
    removed no directory and no file, and has left no file shorter than
    it found it. *)
Theorem mmapTorrentData_never_shrinks metaInfo location w w' mms err :
  mmapTorrentData metaInfo location w = Returned (w', mms, err) ->
  dirs w ⊆ dirs w'
  /\ forall x size, files w !! x = Some size ->
       exists size', files w' !! x = Some size' /\ size <= size'.
Proof.
  intros H. apply mmapTorrentData_extends in H as (A & _ & C & S & _).
  split; [done|]. intros x size Hx.
  assert (is_Some (files w' !! x)) as [size' Hx'].
  { apply elem_of_dom, C, elem_of_dom. eauto. }
  exists size'. split; [done|].
  specialize (S x). unfold fileSize in S. by rewrite Hx, Hx' in S.
Qed.

(** X10: however [mmapTorrentData] returns, a file whose path is not
    that of a listed file (location, name of the torrent and path elements
    joined) is as it was (absent if it was absent), and every directory
    that is new is the directory of a listed file or one of the parents
    above it, which [os.MkdirAll] makes with it. *)
Theorem mmapTorrentData_footprint metaInfo location w w' mms err :
  mmapTorrentData metaInfo location w = Returned (w', mms, err) ->
  let name := metainfo.Name metaInfo in
  (forall x,
     (forall f, f ∈ metainfo.Files metaInfo ->
        x <> filepath_Join ([location; name] ++ metainfo.Path f)) ->
     files w' !! x = files w !! x)
  /\ (forall d, d ∈ dirs w' ->
        d ∈ dirs w
        \/ exists f,
             f ∈ metainfo.Files metaInfo
             /\ d ∈ ancestors
                      (filepath_Dir
                         (filepath_Join
                            ([location; name] ++ metainfo.Path f)))).
Proof.
  intros H name. apply mmapTorrentData_extends in H as (_ & B & _ & _ & K).
  fold name in B, K. split.
  - intros x Hx. apply K. unfold torrent.fileNames.
    intros (n & -> & Hn)%elem_of_list_to_set%list_elem_of_fmap.
    by eapply Hx.
  - intros d Hd. apply B in Hd. apply elem_of_union in Hd as [Hd|Hd].
    + right. unfold torrent.parentDirs in Hd.
      apply elem_of_list_to_set, list_elem_of_bind in Hd as (f & Hd & Hf).
      eauto.
    + by left.
Qed.

(** ** The span that is returned *)

Lemma visitAll_shape loc nm fs mms w w' mms' :
  visitAll loc nm fs mms w = Returned (w', mms', None) ->
  m_file <$> mms' = (m_file <$> mms) ++ (fileName loc nm <$> fs)
  /\ m_len <$> mms' = (m_len <$> mms) ++ (metainfo.Length <$> fs).
Proof.
  revert mms w. induction fs as [|f fs IH]; intros mms w H.
  - injection H as <- <-. by rewrite !app_nil_r.
  - cbn [torrent.visitAll] in H.
    destruct (visit loc nm f mms w) as [[[w1 mms1] [e|]]|msg] eqn:E;
      [discriminate| |discriminate].
    apply visit_ok in E as (_ & _ & _ & -> & _).
    apply IH in H as [-> ->].
    rewrite !fmap_app, <- !app_assoc. done.
Qed.

(** X11: when [mmapTorrentData] returns without error, the span holds one
    region per file of the metainfo, in the order of the files, each
    mapping its file over exactly the declared length. *)
Theorem mmapTorrentData_span metaInfo location w w' mms :
  mmapTorrentData metaInfo location w = Returned (w', mms, None) ->
  length mms = length (metainfo.Files metaInfo)
  /\ m_file <$> mms
     = fileName location (metainfo.Name metaInfo) <$> metainfo.Files metaInfo
  /\ m_len <$> mms = metainfo.Length <$> metainfo.Files metaInfo.
Proof.
  intros H. unfold torrent.mmapTorrentData in H.
  destruct (visitAll location (metainfo.Name metaInfo)
              (metainfo.Files metaInfo) [] w)
    as [[[wf created] [e|]]|msg] eqn:E; try discriminate.
  injection H as <- <-. apply visitAll_shape in E as [Hf Hl].
  cbn [fmap list_fmap app] in Hf, Hl. split_and!; try done.
  by rewrite <- (length_fmap m_len), Hl, length_fmap.
Qed.

Lemma visitAll_fresh loc nm fs mms w w' mms' err :
  visitAll loc nm fs mms w = Returned (w', mms', err) ->
  exists added,
    mms' = mms ++ added
    /\ NoDup (m_id <$> added)
    /\ regions added ## live w
    /\ live w' = regions added ∪ live w.
Proof.
  unfold regions.
  revert mms w. induction fs as [|f fs IH]; intros mms w H.
  - injection H as <- <- <-. exists []. rewrite app_nil_r.
    split_and!; [done|constructor|set_solver|set_solver].
  - cbn [torrent.visitAll] in H.
    destruct (visit loc nm f mms w) as [[[w1 mms1] [e|]]|msg] eqn:E;
      [| |discriminate].
    + injection H as <- <- <-. apply visit_err in E as [-> V].
      exists []. rewrite app_nil_r.
      split_and!; [done|constructor|set_solver|set_solver].
    + apply visit_ok in E as (_ & _ & V & M & _).
      apply IH in H as (added & -> & Hnd & Hdisj & V').
      pose proof (is_fresh (live w)) as Hfresh.
      exists (mkMMap (fresh (live w)) (fileName loc nm f)
                (metainfo.Length f) :: added).
      rewrite M, <- app_assoc. split; [done|].
      cbn [fmap list_fmap m_id]. rewrite V in Hdisj. split_and!.
      * constructor; [|done].
        intros Hin%(elem_of_list_to_set (C:=gset nat)). set_solver.
      * set_solver.
      * rewrite V', V. set_solver.
Qed.

(** X12: when [mmapTorrentData] returns without error, the regions of the span
    are distinct, none of them was live before the call, and they are
    exactly the regions that the call has made live: none was unmapped. *)
Theorem mmapTorrentData_regions_live metaInfo location w w' mms :
  mmapTorrentData metaInfo location w = Returned (w', mms, None) ->
  NoDup (m_id <$> mms)
  /\ regions mms ## live w
  /\ live w' = regions mms ∪ live w.
Proof.
  intros H. unfold torrent.mmapTorrentData in H.
  destruct (visitAll location (metainfo.Name metaInfo)
              (metainfo.Files metaInfo) [] w)
    as [[[wf created] [e|]]|msg] eqn:E; try discriminate.
  injection H as <- <-.
  apply visitAll_fresh in E as (added & Hadd & Hnd & Hdisj & V).
  cbn [app] in Hadd. by subst added.
Qed.

(** ** Panics *)

(** A turn panics at its [MapRegion] call, the fourth call of the turn,
    or the fifth when the file has to be grown first. *)
Lemma visit_panics loc nm f mms w msg :
  visit loc nm f mms w = Panicked msg ->
  msg = "mmap has wrong length"
  /\ exists n,
       host (length (log w) + 3
             + (if (fileSize w (fileName loc nm f) <? metainfo.Length f)%Z
                then 1 else 0))%nat = Deviate n
       /\ n <> metainfo.Length f.
Proof.
  intros H. unfold torrent.visit in H.
  set (n := fileName loc nm f) in *. set (L := metainfo.Length f) in *.
  destruct (os_MkdirAll host (filepath_Dir n) w) as [w1 e1] eqn:E1.
  apply os_MkdirAll_inv in E1 as (F1 & _ & G1 & _).
  destruct e1 as [e1|]; [discriminate|].
  destruct (os_OpenFile host n w1) as [w2 [file|e2]] eqn:E2; [|discriminate].
  apply os_OpenFile_inv in E2 as (_ & _ & G2 & -> & F2).
  unfold mapFile in H. fold L in H.
  destruct (file_Stat host n w2) as [w3 [size|e3]] eqn:E3; [|discriminate].
  apply file_Stat_inv in E3 as (_ & F3 & _ & G3 & S3). cbv beta iota in S3.
  assert (size = fileSize w n) as ->.
  { rewrite F2, lookup_insert_eq in S3. injection S3 as <-.
    unfold fileSize. by rewrite F1. }
  destruct (if fileSize w n <? L then file_Truncate host n L w3
            else (w3, None)) as [w4 e4] eqn:E4.
  assert (length (log w4)
          = (length (log w) + 3
             + (if (fileSize w n <? L)%Z then 1 else 0))%nat) as Hcalls.
  { destruct (fileSize w n <? L).
    - apply file_Truncate_inv in E4 as (_ & _ & G4 & _).
      rewrite G4, G3, G2, G1, !length_app. cbn. lia.
    - injection E4 as <- <-.
      rewrite G3, G2, G1, !length_app. cbn. lia. }
  destruct e4 as [e4|]; [discriminate|].
  destruct (gommap_MapRegion host n L w4) as [w5 [m|e5]] eqn:E5;
    [|discriminate].
  destruct (negb (m_len m =? L)) eqn:Hlen; [|discriminate].
  injection H as <-. split; [done|].
  apply negb_true_iff, Z.eqb_neq in Hlen.
  apply gommap_MapRegion_len in E5 as [?|(k & Hk & <- & Hne)]; [done|].
  exists (m_len m). by rewrite <- Hcalls.
Qed.

Lemma visitAll_panic_split loc nm fs mms w msg :
  visitAll loc nm fs mms w = Panicked msg ->
  exists pre f post w1 mms1,
    fs = pre ++ f :: post
    /\ visitAll loc nm pre mms w = Returned (w1, mms1, None)
    /\ visit loc nm f mms1 w1 = Panicked msg.
Proof.
  revert mms w. induction fs as [|f fs IH]; intros mms w H; [discriminate|].
  cbn [torrent.visitAll] in H.
  destruct (visit loc nm f mms w) as [[[w1 mms1] [e1|]]|msg1] eqn:E.
  - discriminate.
  - apply IH in H as (pre & g & post & w2 & mms2 & -> & Hpre & Hg).
    exists (f :: pre), g, post, w2, mms2. split; [done|].
    cbn [torrent.visitAll]. by rewrite E.
  - injection H as ->. by exists [], f, fs, w, mms.
Qed.

(** X13: [mmapTorrentData] panics in two ways only.  Through a nil
    metainfo pointer the loop header panics with the nil-dereference
    error of the runtime.  Otherwise the message is "mmap has wrong
    length", the files before some file [f] have had their turn without
    error, and the turn of [f] has panicked at its [MapRegion] call (its
    fourth call after [MkdirAll], [OpenFile] and [Stat], or its fifth when
    [f] is grown first), at which the host has handed back a region whose
    length is not the declared length of [f]. *)
Theorem mmapTorrentData_panics_only_on_wrong_length
    metaInfo location w msg :
  mmapTorrentData_ptr filepath_Join filepath_Dir host metaInfo location w
    = Panicked msg ->
  (metaInfo = None /\ msg = nilDereference)
  \/ exists mi pre f post w1 mms1 n,
       metaInfo = Some mi /\ msg = "mmap has wrong length"
       /\ metainfo.Files mi = pre ++ f :: post
       /\ visitAll location (metainfo.Name mi) pre [] w
          = Returned (w1, mms1, None)
       /\ visit location (metainfo.Name mi) f mms1 w1 = Panicked msg
       /\ let path :=
            filepath_Join ([location; metainfo.Name mi] ++ metainfo.Path f)
          in
          host (length (log w1) + 3
                + (if (fileSize w1 path <? metainfo.Length f)%Z
                   then 1 else 0))%nat
            = Deviate n
          /\ n <> metainfo.Length f.
Proof.
  intros H. destruct metaInfo as [mi|]; cbn [mmapTorrentData_ptr] in H.
  2:{ left. by injection H as <-. }
  right. unfold torrent.mmapTorrentData in H.
  destruct (visitAll location (metainfo.Name mi) (metainfo.Files mi) [] w)
    as [[[wf created] [e|]]|msg'] eqn:E; try discriminate.
  injection H as ->.
  apply visitAll_panic_split in E
    as (pre & f & post & w1 & mms1 & Hsplit & Hpre & Hf).
  pose proof (visit_panics _ _ _ _ _ _ Hf) as (-> & n & Hk & Hne).
  exists mi, pre, f, post, w1, mms1, n. split_and!; try done.
Qed.

(** ** Running it again *)

Lemma visitAll_settles loc nm fs mms w w' mms' :
  visitAll loc nm fs mms w = Returned (w', mms', None) ->
  settled loc nm fs w'.
Proof.
  revert mms w. induction fs as [|f fs IH]; intros mms w H g Hg.
  - by apply elem_of_nil in Hg.
  - cbn [torrent.visitAll] in H.
    destruct (visit loc nm f mms w) as [[[w1 mms1] [e|]]|msg] eqn:E;
      [discriminate| |discriminate].
    apply elem_of_cons in Hg as [->|Hg]; [|by eapply IH].
    apply visit_ok in E as (D & F & _).
    apply visitAll_extends in H as (A & _ & C & S & _).
    set (n := fileName loc nm f) in *. split; [set_solver|].
    assert (is_Some (files w' !! n)) as [size Hsize].
    { apply elem_of_dom, C. rewrite F, dom_insert_L. set_solver. }
    exists size. split; [done|].
    specialize (S n). unfold fileSize in S at 1 2.
    rewrite F, lookup_insert_eq, Hsize in S. cbn in S. lia.
Qed.

Lemma visitAll_settled_idle loc nm fs mms w w' mms' :
  settled loc nm fs w ->
  visitAll loc nm fs mms w = Returned (w', mms', None) ->
  dirs w' = dirs w /\ files w' = files w
  /\ exists evs, log w' = log w ++ evs
                /\ forall n L, ETruncate n L ∉ evs.
Proof.
  revert mms w. induction fs as [|f fs IH]; intros mms w Hs H.
  - injection H as <- <-. split_and!; try done.
    exists []. rewrite app_nil_r. split; [done|]. intros n L. apply not_elem_of_nil.
  - cbn [torrent.visitAll] in H.
    destruct (visit loc nm f mms w) as [[[w1 mms1] [e|]]|msg] eqn:E;
      [discriminate| |discriminate].
    apply visit_ok in E as (D & F & _ & _ & G).
    destruct (Hs f) as (Hd & size & Hsize & Hle); [set_solver|].
    set (n := fileName loc nm f) in *.
    assert (fileSize w n = size) as Hfs by (unfold fileSize; by rewrite Hsize).
    rewrite Hfs in F, G. rewrite Z.max_l in F by lia.
    rewrite insert_id in F by done.
    destruct (Z.ltb_spec size (metainfo.Length f)) as [?|_]; [lia|].
    assert (dirs w1 = dirs w) as D' by set_solver.
    apply IH in H as (-> & -> & evs & -> & Hevs).
    + split_and!; try done.
      eexists. rewrite G, <- !app_assoc. split; [done|].
      intros m L. cbn. rewrite !elem_of_cons.
      intros [?|[?|[?|[?|[?|?]]]]]; try discriminate. by eapply Hevs.
    + intros g Hg. rewrite D', F. apply Hs. set_solver.
Qed.

End MmapMore.

Section MmapRerun.

Import torrent.

Variable filepath_Join : list string -> string.
Variable filepath_Dir : string -> string.
Variables first second : nat -> reply.

(** X14: a second run of [mmapTorrentData] over the result of a first one,
    both without error, finds every file in place: it adds no directory,
    leaves every file as it is and truncates nothing. *)
Theorem mmapTorrentData_again metaInfo location w w1 mms1 w2 mms2 :
  mmapTorrentData filepath_Join filepath_Dir first metaInfo location w
    = Returned (w1, mms1, None) ->
  mmapTorrentData filepath_Join filepath_Dir second metaInfo location w1
    = Returned (w2, mms2, None) ->
  dirs w2 = dirs w1 /\ files w2 = files w1
  /\ exists evs, log w2 = log w1 ++ evs
                /\ forall n L, ETruncate n L ∉ evs.
Proof.
  intros H1 H2. unfold mmapTorrentData in *.
  destruct (visitAll filepath_Join filepath_Dir first location
              (metainfo.Name metaInfo) (metainfo.Files metaInfo) [] w)
    as [[[wa ma] [e|]]|msg] eqn:E1; try discriminate.
  destruct (visitAll filepath_Join filepath_Dir second location
              (metainfo.Name metaInfo) (metainfo.Files metaInfo) [] w1)
    as [[[wb mb] [e|]]|msg] eqn:E2; try discriminate.
  injection H1 as <- <-. injection H2 as <- <-.
  apply visitAll_settles in E1.
  by eapply visitAll_settled_idle.
Qed.

End MmapRerun.

Section MmapMoreSamples.

Import torrent.

Lemma mmapTorrentData_never_shrinks_witness :
  exists w' mms,
    mmapTorrentData sampleJoin sampleDir calm sampleInfo "data" usedWorld
      = Returned (w', mms, None)
    /\ (dirs usedWorld ⊆ dirs w'
        /\ forall x size, files usedWorld !! x = Some size ->
             exists size', files w' !! x = Some size' /\ size <= size').
Proof.
  eexists _, _. split; [vm_compute; reflexivity|].
  eapply (mmapTorrentData_never_shrinks sampleJoin sampleDir calm
            sampleInfo "data" usedWorld).
  vm_compute; reflexivity.
Defined.

Lemma mmapTorrentData_footprint_witness :
  exists w',
    mmapTorrentData sampleJoin sampleDir (refusing 9 "no space left")
                    sampleInfo "data" emptyWorld
      = Returned (w', [], Some "no space left")
    /\ ((forall x,
          (forall f, f ∈ metainfo.Files sampleInfo ->
             x <> sampleJoin (["data"; "album"] ++ metainfo.Path f)) ->
          files w' !! x = files emptyWorld !! x)
        /\ (forall d, d ∈ dirs w' ->
              d ∈ dirs emptyWorld
              \/ exists f,
                   f ∈ metainfo.Files sampleInfo
                   /\ d ∈ ancestors
                            (sampleDir
                               (sampleJoin
                                  (["data"; "album"]
                                   ++ metainfo.Path f))))).
Proof.
  eexists. split; [vm_compute; reflexivity|].
  eapply (mmapTorrentData_footprint sampleJoin sampleDir
            (refusing 9 "no space left") sampleInfo "data" emptyWorld).
  vm_compute; reflexivity.
Defined.

Lemma mmapTorrentData_span_witness :
  exists w' mms,
    mmapTorrentData sampleJoin sampleDir calm sampleInfo "data" emptyWorld
      = Returned (w', mms, None)
    /\ (length mms = length (metainfo.Files sampleInfo)
        /\ m_file <$> mms
           = fileName sampleJoin "data" (metainfo.Name sampleInfo)
               <$> metainfo.Files sampleInfo
        /\ m_len <$> mms = metainfo.Length <$> metainfo.Files sampleInfo).
Proof.
  eexists _, _. split; [vm_compute; reflexivity|].
  eapply (mmapTorrentData_span sampleJoin sampleDir calm
            sampleInfo "data" emptyWorld).
  vm_compute; reflexivity.
Defined.

Lemma mmapTorrentData_regions_live_witness :
  exists w' mms,
    mmapTorrentData sampleJoin sampleDir calm sampleInfo "data" emptyWorld
      = Returned (w', mms, None)
    /\ (NoDup (m_id <$> mms)
        /\ regions mms ## live emptyWorld
        /\ live w' = regions mms ∪ live emptyWorld).
Proof.
  eexists _, _. split; [vm_compute; reflexivity|].
  eapply (mmapTorrentData_regions_live sampleJoin sampleDir calm
            sampleInfo "data" emptyWorld).
  vm_compute; reflexivity.
Defined.

Lemma mmapTorrentData_panics_only_on_wrong_length_witness :
  mmapTorrentData_ptr sampleJoin sampleDir (deviating 4 1) (Some sampleInfo)
                      "data" emptyWorld
    = Panicked "mmap has wrong length"
  /\ ((Some sampleInfo = None
       /\ "mmap has wrong length" = nilDereference)
      \/ exists mi pre f post w1 mms1 n,
           Some sampleInfo = Some mi
           /\ "mmap has wrong length" = "mmap has wrong length"
           /\ metainfo.Files mi = pre ++ f :: post
           /\ visitAll sampleJoin sampleDir (deviating 4 1) "data"
                       (metainfo.Name mi) pre [] emptyWorld
              = Returned (w1, mms1, None)
           /\ visit sampleJoin sampleDir (deviating 4 1) "data"
                    (metainfo.Name mi) f mms1 w1
              = Panicked "mmap has wrong length"
           /\ let path :=
                sampleJoin (["data"; metainfo.Name mi] ++ metainfo.Path f)
              in
              deviating 4 1
                (length (log w1) + 3
                 + (if (fileSize w1 path <? metainfo.Length f)%Z
                    then 1 else 0))%nat
                = Deviate n
              /\ n <> metainfo.Length f).
Proof.
  split; [vm_compute; reflexivity|].
  apply (mmapTorrentData_panics_only_on_wrong_length sampleJoin sampleDir
           (deviating 4 1) (Some sampleInfo) "data" emptyWorld).
  vm_compute; reflexivity.
Defined.

Lemma mmapTorrentData_again_witness :
  exists w1 mms1 w2 mms2,
    mmapTorrentData sampleJoin sampleDir calm sampleInfo "data" emptyWorld
      = Returned (w1, mms1, None)
    /\ mmapTorrentData sampleJoin sampleDir calm sampleInfo "data" w1
      = Returned (w2, mms2, None)
    /\ (dirs w2 = dirs w1 /\ files w2 = files w1
        /\ exists evs, log w2 = log w1 ++ evs
                      /\ forall n L, ETruncate n L ∉ evs).
Proof.
  eexists _, _, _, _. split; [vm_compute; reflexivity|].
  split; [vm_compute; reflexivity|].
  eapply (mmapTorrentData_again sampleJoin sampleDir calm calm
            sampleInfo "data" emptyWorld);
    vm_compute; reflexivity.
Defined.

End MmapMoreSamples.

(** * Further properties of the tracker codec *)

Section CodecMore.

Import tracker.

(** ** Ports kept in a signed 16-bit field *)

(** X16: a port number, kept in an [int16] and converted back through
    [uint16], is the port number again, although from 32768 on the
    [int16] holds a negative value. *)
Theorem uint16_int16 (i : Z) :
  0 <= i < 65536 ->
  uint16 (int16 i) = i
  /\ (i < 32768 -> int16 i = i)
  /\ (32768 <= i -> int16 i = i - 65536).
Proof.
  intros Hi. unfold uint16, int16, to_signed.
  change (256 ^ Z.of_nat 2) with 65536. change (2 ^ 16) with 65536.
  rewrite (Z.mod_small i 65536) by lia.
  destruct (Z.leb_spec 65536 (2 * i)) as [Hhigh|Hlow].
  - split; [|split; lia].
    symmetry. apply (Z.mod_unique (i - 65536) 65536 (-1)); lia.
  - split; [|split; lia]. apply Z.mod_small. lia.
Qed.

Lemma uint16_int16_witness :
  uint16 (int16 50000) = 50000
  /\ (50000 < 32768 -> int16 50000 = 50000)
  /\ (32768 <= 50000 -> int16 50000 = 50000 - 65536).
Proof. apply (uint16_int16 50000). lia. Defined.

(** ** Sizes on the wire *)

Lemma length_encode_RequestHeader h :
  length (encode_RequestHeader h) = 16%nat.
Proof.
  unfold encode_RequestHeader. by rewrite !length_app, !length_put_be.
Qed.

Lemma length_encode_ResponseHeader h :
  length (encode_ResponseHeader h) = 8%nat.
Proof.
  unfold encode_ResponseHeader. by rewrite !length_app, !length_put_be.
Qed.

Lemma length_encode_ConnectionResponse c :
  length (encode_ConnectionResponse c) = 8%nat.
Proof. unfold encode_ConnectionResponse. by rewrite length_put_be. Qed.

Lemma length_encode_AnnounceRequest a :
  wf_AnnounceRequest a -> length (encode_AnnounceRequest a) = 82%nat.
Proof.
  intros (Hih & Hpid & _). unfold encode_AnnounceRequest.
  by rewrite !length_app, !length_put_be, Hih, Hpid.
Qed.

Lemma length_encode_AnnounceResponseHeader h :
  length (encode_AnnounceResponseHeader h) = 12%nat.
Proof.
  unfold encode_AnnounceResponseHeader.
  by rewrite !length_app, !length_put_be.
Qed.

Lemma length_encode_CompactPeers ps :
  length (encode_CompactPeers ps) = (6 * length ps)%nat.
Proof.
  unfold encode_CompactPeers. induction ps as [|p ps IH]; [done|].
  cbn [flat_map length]. rewrite length_app, length_encode_CompactPeer, IH.
  lia.
Qed.

(** X17: what [TestMarshalAnnounceResponse] checks on one input holds for
    all: an [AnnounceResponseHeader] is 12 bytes on the wire, a list of
    compact peers 6 bytes per peer, and a whole announce response 20
    bytes and 6 more per peer. *)
Theorem announce_response_sizes h a ps :
  length (encode_AnnounceResponseHeader a) = 12%nat
  /\ length (encode_CompactPeers ps) = (6 * length ps)%nat
  /\ length (encode SAnnounceResponse (h, a, ps))
     = (width SAnnounceResponse + 6 * length ps)%nat.
Proof.
  split; [apply length_encode_AnnounceResponseHeader|].
  split; [apply length_encode_CompactPeers|].
  cbn [encode width].
  rewrite !length_app, length_encode_ResponseHeader,
    length_encode_AnnounceResponseHeader, length_encode_CompactPeers.
  lia.
Qed.

(** ** Bytes after a structure *)

(** X18: decoding a fixed-width structure off the front of a datagram leaves
    the bytes after it as they are (the options after an announce
    request, as [TestURLPathOption] reads them) and consumes exactly the
    width of the structure. *)
Theorem decode_leaves_rest (s : structure) (x : value s) (rest : list byte) :
  s <> SAnnounceResponse -> wf s x ->
  parse s (encode s x ++ rest) = Ok (x, rest)
  /\ decode s (encode s x ++ rest) = Ok (x, width s).
Proof.
  intros Hs Hwf.
  assert (parse s (encode s x ++ rest) = Ok (x, rest)
          /\ length (encode s x) = width s) as [Hp Hl].
  { destruct s; cbn [value parse encode wf width] in *; try done.
    - split; [by apply decode_ResponseHeader_encode|].
      apply length_encode_ResponseHeader.
    - split; [by apply decode_RequestHeader_encode|].
      apply length_encode_RequestHeader.
    - destruct x as [h c]. destruct Hwf as [Hh Hc]. split.
      + rewrite <- app_assoc.
        unfold mbind, decoder_bind, bind, mret, decoder_ret, ret.
        rewrite decode_ResponseHeader_encode by done.
        by rewrite decode_ConnectionResponse_encode.
      + by rewrite length_app, length_encode_ResponseHeader,
          length_encode_ConnectionResponse.
    - destruct x as [h a]. destruct Hwf as [Hh Ha]. split.
      + rewrite <- app_assoc.
        unfold mbind, decoder_bind, bind, mret, decoder_ret, ret.
        rewrite decode_RequestHeader_encode by done.
        by rewrite decode_AnnounceRequest_encode.
      + by rewrite length_app, length_encode_RequestHeader,
          length_encode_AnnounceRequest.
    - destruct x as [h a]. destruct Hwf as [Hh Ha]. split.
      + rewrite <- app_assoc.
        unfold mbind, decoder_bind, bind, mret, decoder_ret, ret.
        rewrite decode_ResponseHeader_encode by done.
        by rewrite decode_AnnounceResponseHeader_encode.
      + by rewrite length_app, length_encode_ResponseHeader,
          length_encode_AnnounceResponseHeader. }
  split; [done|]. unfold decode. rewrite Hp. do 2 f_equal.
  rewrite length_app. lia.
Qed.

Lemma decode_leaves_rest_witness :
  parse SAnnounceRequest
    (encode SAnnounceRequest (sampleConnect, sampleAnnounce)
     ++ [x02; x09; x2f; x61])
    = Ok ((sampleConnect, sampleAnnounce), [x02; x09; x2f; x61])
  /\ decode SAnnounceRequest
       (encode SAnnounceRequest (sampleConnect, sampleAnnounce)
        ++ [x02; x09; x2f; x61])
     = Ok ((sampleConnect, sampleAnnounce), width SAnnounceRequest).
Proof.
  apply (decode_leaves_rest SAnnounceRequest (sampleConnect, sampleAnnounce)
           [x02; x09; x2f; x61]).
  - discriminate.
  - repeat first [split | constructor]; vm_compute; congruence.
Defined.

End CodecMore.

(** * Where [mmapTorrentData] stops *)

Section MmapErrors.

Import torrent.

Variable filepath_Join : list string -> string.
Variable filepath_Dir : string -> string.
Variable host : nat -> reply.

Abbreviation visit := (visit filepath_Join filepath_Dir host).
Abbreviation visitAll := (visitAll filepath_Join filepath_Dir host).
Abbreviation fileName := (fileName filepath_Join).

Lemma visitAll_error_split loc nm fs mms w w' mms' e :
  visitAll loc nm fs mms w = Returned (w', mms', Some e) ->
  exists pre f post w1 mms1,
    fs = pre ++ f :: post
    /\ visitAll loc nm pre mms w = Returned (w1, mms1, None)
    /\ visit loc nm f mms1 w1 = Returned (w', mms', Some e).
Proof.
  revert mms w. induction fs as [|f fs IH]; intros mms w H; [discriminate|].
  cbn [torrent.visitAll] in H.
  destruct (visit loc nm f mms w) as [[[w1 mms1] [e1|]]|msg] eqn:E;
    [| |discriminate].
  - injection H as <- <- <-. by exists [], f, fs, w, mms.
  - apply IH in H as (pre & g & post & w2 & mms2 & -> & Hpre & Hg).
    exists (f :: pre), g, post, w2, mms2. split; [done|].
    cbn [torrent.visitAll]. by rewrite E.
Qed.

(** X15: an error ends the loop at the file whose turn failed: the files
    before it had their turn without error, the error returned is that
    turn's, the regions closed are those of the files before it, and a
    file listed only after it is left as it was. *)
Theorem mmapTorrentData_error_stops metaInfo location w w' mms e :
  mmapTorrentData filepath_Join filepath_Dir host metaInfo location w
    = Returned (w', mms, Some e) ->
  let name := metainfo.Name metaInfo in
  exists pre f post w1 mms1 w2,
    metainfo.Files metaInfo = pre ++ f :: post
    /\ visitAll location name pre [] w = Returned (w1, mms1, None)
    /\ visit location name f mms1 w1 = Returned (w2, mms1, Some e)
    /\ length mms1 = length pre
    /\ w' = MMapSpan_Close mms1 w2
    /\ forall x,
         (forall g, g ∈ pre ++ [f] -> x <> fileName location name g) ->
         files w' !! x = files w !! x.
Proof.
  intros H name. unfold mmapTorrentData in H. fold name in H.
  destruct (torrent.visitAll filepath_Join filepath_Dir host location name
              (metainfo.Files metaInfo) [] w)
    as [[[wf created] [e'|]]|msg] eqn:E; try discriminate.
  injection H as <- <- <-.
  apply visitAll_error_split in E
    as (pre & f & post & w1 & mms1 & Hsplit & Hpre & Hf).
  pose proof (visit_err _ _ _ _ _ _ _ _ _ _ _ Hf) as [-> _].
  exists pre, f, post, w1, mms1, wf. split_and!; try done.
  - apply visitAll_mono in Hpre as (_ & _ & _ & added & -> & Hlen). done.
  - intros x Hx.
    destruct (MMapSpan_Close_frame mms1 wf) as [_ ->].
    apply visitAll_extends in Hpre as (_ & _ & _ & _ & K1).
    pose proof (visit_extends filepath_Join filepath_Dir host
                  {[fileName location name f]}
                  (list_to_set
                     (ancestors (filepath_Dir (fileName location name f))))
                  location name f mms1 w1 wf mms1 (Some e')
                  ltac:(set_solver) ltac:(set_solver) Hf)
      as (_ & _ & _ & _ & K2).
    rewrite K2, K1; [done| |].
    + unfold fileNames.
      intros (g & -> & Hg)%elem_of_list_to_set%list_elem_of_fmap.
      eapply Hx; [|done]. set_solver.
    + intros ->%elem_of_singleton. eapply Hx; [|done]. set_solver.
Qed.

End MmapErrors.

Section MmapErrorSamples.

Import torrent.

Lemma mmapTorrentData_error_stops_witness :
  exists w',
    mmapTorrentData sampleJoin sampleDir (refusing 2 "permission denied")
                    sampleInfo "data" emptyWorld
      = Returned (w', [], Some "permission denied")
    /\ exists pre f post w1 mms1 w2,
         metainfo.Files sampleInfo = pre ++ f :: post
         /\ visitAll sampleJoin sampleDir (refusing 2 "permission denied")
                     "data" "album" pre [] emptyWorld
            = Returned (w1, mms1, None)
         /\ visit sampleJoin sampleDir (refusing 2 "permission denied")
                  "data" "album" f mms1 w1
            = Returned (w2, mms1, Some "permission denied")
         /\ length mms1 = length pre
         /\ w' = MMapSpan_Close mms1 w2
         /\ forall x,
              (forall g, g ∈ pre ++ [f] ->
                         x <> fileName sampleJoin "data" "album" g) ->
              files w' !! x = files emptyWorld !! x.
Proof.
  eexists. split; [vm_compute; reflexivity|].
  eapply (mmapTorrentData_error_stops sampleJoin sampleDir
            (refusing 2 "permission denied") sampleInfo "data" emptyWorld).
  vm_compute; reflexivity.
Defined.

End MmapErrorSamples.
